(** * Router: a shallow embedding of [src/Router.ts]

    The development follows the source file top to bottom:

    - the JavaScript values the router handles ([value], [thrown],
      [outcome] of a promise, [completion] of a call);
    - [stripJoiners] and [Array.prototype.join];
    - the [URLPattern] platform class, as an interface ([URLPatternAPI])
      with one instance that follows the WHATWG URL Pattern Standard on
      a fragment of the pattern syntax ([Module WHATWG]);
    - the route tree, [Router.#patternize], [Router.#resolve] and
      [Router.resolve].

    Effects.  The matching traversal of [#resolve] contains no [await]:
    it runs synchronously inside the call and only its result is wrapped
    in a promise.  A computation is therefore modelled by the outcome its
    promise settles with, paired with the list of observable events that
    happened on the way, in order (a writer monad, [Eff]).  The events are
    the calls the claims speak about: a matcher evaluated, an action
    invoked, the error handler invoked. *)

From Stdlib Require Import ZArith String Ascii.
From stdpp Require Import base option list gmap strings.

Local Open Scope string_scope.
Local Open Scope list_scope.

(** ** JavaScript data *)

(** [T | null | undefined] for a property or an argument that may be
    missing: [children?: ... | null], [context?: C | null]. *)
Inductive optional (A : Type) : Type :=
| Absent                (* undefined, or the property is not there *)
| Null                  (* null *)
| Present (a : A).
Arguments Absent {A}.
Arguments Null {A}.
Arguments Present {A} a.

(** [URL | string]: a URL object is represented by its serialisation
    ([href]), which is what both [String(path)] and the matcher see. *)
Inductive PathInput : Type :=
| PathString (s : string)
| PathURL (href : string).

(** [String(path)] *)
Definition String_ (p : PathInput) : string :=
  match p with
  | PathString s => s
  | PathURL href => href
  end.

(** [Record<string, string | undefined>], in insertion order. *)
Definition Groups : Type := list (string * option string).

(** One component of a [URLPatternResult]. *)
Record URLPatternComponentResult : Type := mkComponent {
  input : string;
  groups : Groups
}.

(** The components of a [URLPatternResult] that a path router can look
    at (protocol, credentials, host and port are left out). *)
Record URLPatternResult : Type := mkResult {
  pathname : URLPatternComponentResult;
  search : URLPatternComponentResult;
  hash : URLPatternComponentResult
}.

(** The [URLPattern] class of the platform.  [URLPattern_new input base]
    is [new URLPattern(input, base)]: [input] is [None] when the first
    argument is [undefined], and the result is [None] when the
    constructor throws.  [URLPattern_exec] is [pattern.exec(path)]; it
    returns [None] for [null] and never throws. *)
Class URLPatternAPI : Type := {
  URLPattern : Type;
  URLPattern_new : option string -> string -> option URLPattern;
  URLPattern_exec : URLPattern -> PathInput -> option URLPatternResult
}.

(** ** [stripJoiners] *)

Definition slash : ascii := "/"%char.

Definition is_slash (c : ascii) : bool := bool_decide (c = slash).

(** The line terminators of ECMAScript, which [.] does not match without
    the [s] flag: LF, CR and, in UTF-8, U+2028 and U+2029. *)
Fixpoint has_line_terminator (s : string) : bool :=
  match s with
  | EmptyString => false
  | String c r =>
      if bool_decide (c = "010"%char) || bool_decide (c = "013"%char) then true
      else
        match c, r with
        | "226"%char, String "128"%char (String d _) =>
            if bool_decide (d = "168"%char) || bool_decide (d = "169"%char)
            then true else has_line_terminator r
        | _, _ => has_line_terminator r
        end
  end.

(** [^\/*]: the leading run of separators. *)
Fixpoint strip_leading (s : string) : string :=
  match s with
  | String c r => if is_slash c then strip_leading r else s
  | EmptyString => EmptyString
  end.

(** [\/*$]: the trailing run of separators; the lazy group in front of
    it ends where the rest of the string is separators only. *)
Fixpoint strip_trailing (s : string) : string :=
  match s with
  | EmptyString => EmptyString
  | String c r =>
      match strip_trailing r with
      | EmptyString => if is_slash c then EmptyString else String c EmptyString
      | r' => String c r'
      end
  end.

(** [stripJoiners]: [urlJoinersPattern.exec(path)] fails exactly when the
    string holds a line terminator; then [?? []] makes [part] undefined
    ([None]). *)
Definition stripJoiners (path : string) : option string :=
  if has_line_terminator path then None
  else Some (strip_trailing (strip_leading path)).

(** [parents.join('/')]: an undefined element is joined as the empty
    string. *)
Definition join (sep : string) (parts : list (option string)) : string :=
  String.concat sep (map (default "") parts).

(** ** The platform's [URLPattern]

    [URLPattern] is not part of the repository.  This instance follows
    the WHATWG URL Pattern Standard on the fragment that the examples
    below need:

    - pattern strings are relative (no protocol) and made of literal
      characters, escapes, named groups [:name] and wildcards ["*"],
      with an optional [?search] part; modifiers, braces, regular
      expression groups and [#hash] parts are outside the fragment and
      [URLPattern_new] answers [None] on them;
    - URLs have the shape [scheme://authority/path?query#fragment] and
      are taken in serialised form (no percent-encoding or dot-segment
      normalisation is performed).

    What the Standard prescribes and the router depends on:

    - "process a URLPatternInit": protocol, hostname and port come from
      the base URL; a pathname that is not absolute is appended to the
      base URL's path cut after its last ["/"]; search and hash are not
      inherited once a pathname is given and default to ["*"];
    - "match": a string input is parsed with the basic URL parser
      without a base, so a relative string does not parse and [exec]
      returns [null]; every component must match entirely; the groups
      of each component are reported under that component. *)
Module WHATWG.

Record URLRecord : Type := mkURL {
  origin : string;        (* scheme://authority *)
  url_pathname : string;
  url_query : string;     (* without the leading "?" *)
  url_fragment : string   (* without the leading "#" *)
}.

(** [split_at p s]: the longest prefix of [s] without a character
    satisfying [p], and the rest. *)
Fixpoint split_at (p : ascii -> bool) (s : string) : string * string :=
  match s with
  | EmptyString => (EmptyString, EmptyString)
  | String c r =>
      if p c then (EmptyString, s)
      else let '(a, b) := split_at p r in (String c a, b)
  end.

Definition is_char (x : ascii) (c : ascii) : bool := bool_decide (c = x).

Definition is_alpha (c : ascii) : bool :=
  let n := nat_of_ascii c in
  ((65 <=? n) && (n <=? 90) || (97 <=? n) && (n <=? 122))%nat.

Definition is_digit (c : ascii) : bool :=
  let n := nat_of_ascii c in ((48 <=? n) && (n <=? 57))%nat.

Definition is_scheme_char (c : ascii) : bool :=
  is_alpha c || is_digit c || is_char "+" c || is_char "-" c || is_char "." c.

Fixpoint forallb_string (p : ascii -> bool) (s : string) : bool :=
  match s with
  | EmptyString => true
  | String c r => p c && forallb_string p r
  end.

Definition tail (s : string) : string :=
  match s with
  | EmptyString => EmptyString
  | String _ r => r
  end.

(** The basic URL parser, without a base URL. *)
Definition parse_url (s : string) : option URLRecord :=
  let '(scheme, rest) := split_at (is_char ":") s in
  match scheme, rest with
  | String c0 _, String _ (String "/" (String "/" rest')) =>
      if is_alpha c0 && forallb_string is_scheme_char scheme then
        let stop c := is_char "/" c || is_char "?" c || is_char "#" c in
        let '(authority, rest1) := split_at stop rest' in
        let '(path, rest2) := split_at (fun c => is_char "?" c || is_char "#" c) rest1 in
        let '(query, rest3) :=
          match rest2 with
          | String "?" q => split_at (is_char "#") q
          | _ => (EmptyString, rest2)
          end in
        match authority with
        | EmptyString => None
        | _ =>
            Some {| origin := scheme +:+ "://" +:+ authority;
                    url_pathname := match path with EmptyString => "/" | _ => path end;
                    url_query := query;
                    url_fragment := tail rest3 |}
        end
      else None
  | _, _ => None
  end.

(** *** Pattern strings *)

Inductive token : Type :=
| TChar (c : ascii)
| TName (n : string)
| TStar
| TQuestion.

Definition is_name_start (c : ascii) : bool :=
  is_alpha c || is_char "_" c || is_char "$" c.

Definition is_name_char (c : ascii) : bool := is_name_start c || is_digit c.

Definition outside_fragment (c : ascii) : bool :=
  is_char "{" c || is_char "}" c || is_char "(" c || is_char ")" c
  || is_char "+" c || is_char "#" c.

(** A name under construction is closed when a character that cannot
    continue it is met; [":"] without a name is a syntax error. *)
Definition close_name (name : option string) : option (list token) :=
  match name with
  | None => Some []
  | Some EmptyString => None
  | Some n => Some [TName n]
  end.

Definition continues (name : option string) (c : ascii) : bool :=
  match name with
  | None => false
  | Some EmptyString => is_name_start c
  | Some _ => is_name_char c
  end.

Fixpoint tokenize (s : string) (name : option string) {struct s} : option (list token) :=
  match s with
  | EmptyString => close_name name
  | String c r =>
      if continues name c
      then tokenize r (Some (default EmptyString name +:+ String c EmptyString))
      else
        match close_name name with
        | None => None
        | Some closed =>
            let rest :=
              if is_char ":" c then tokenize r (Some EmptyString)
              else if is_char "*" c then cons TStar <$> tokenize r None
              else if is_char "?" c then cons TQuestion <$> tokenize r None
              else if is_char "\" c then
                match r with
                | String d r' => cons (TChar d) <$> tokenize r' None
                | EmptyString => None
                end
              else if outside_fragment c then None
              else cons (TChar c) <$> tokenize r None in
            app closed <$> rest
        end
  end.

(** The constructor string parser, "pathname" and "search" states: a
    ["?"] starts the search part unless it follows a name or a
    wildcard, where it is a modifier. *)
Fixpoint split_search (ts : list token) (after_group : bool)
  : option (list token * option (list token)) :=
  match ts with
  | [] => Some ([], None)
  | TQuestion :: rest =>
      if after_group then None
      else if forallb (fun t => match t with TQuestion => false | _ => true end) rest
      then Some ([], Some rest)
      else None
  | t :: rest =>
      let group := match t with TName _ | TStar => true | _ => false end in
      match split_search rest group with
      | Some (p, q) => Some (t :: p, q)
      | None => None
      end
  end.

Inductive part : Type :=
| Fixed (c : ascii)              (* a literal character *)
| Segment (name : string)        (* [:name] *)
| FullWildcard (name : string).  (* ["*"], named by its index *)

Fixpoint digits (fuel n : nat) (acc : string) : string :=
  match fuel with
  | O => acc
  | S fuel' =>
      let acc' := String (ascii_of_nat (48 + n mod 10)) acc in
      if (n <? 10)%nat then acc' else digits fuel' (n / 10) acc'
  end.

Definition string_of_nat (n : nat) : string := digits (S n) n EmptyString.

(** "parse a pattern string": unnamed groups are numbered from 0 within
    their component. *)
Fixpoint parts_of (ts : list token) (index : nat) : list part :=
  match ts with
  | [] => []
  | TChar c :: rest => Fixed c :: parts_of rest index
  | TName n :: rest => Segment n :: parts_of rest index
  | TStar :: rest => FullWildcard (string_of_nat index) :: parts_of rest (S index)
  | TQuestion :: rest => Fixed "?" :: parts_of rest index
  end.

Fixpoint literal (s : string) : list part :=
  match s with
  | EmptyString => []
  | String c r => Fixed c :: literal r
  end.

(** The compiled pattern: protocol, hostname and port are literal and
    kept together. *)
Record Pattern : Type := mkPattern {
  p_origin : string;
  p_pathname : list part;
  p_search : list part;
  p_hash : list part
}.

(** [s] cut after its last ["/"]; [None] when it has none. *)
Fixpoint directory (s : string) : option string :=
  match s with
  | EmptyString => None
  | String c r =>
      match directory r with
      | Some d => Some (String c d)
      | None => if is_slash c then Some (String c EmptyString) else None
      end
  end.

Definition is_absolute_pathname (ts : list token) : bool :=
  match ts with
  | TChar c :: _ => is_slash c
  | _ => false
  end.

(** [new URLPattern(input, base)] *)
Definition construct (input : option string) (base : string) : option Pattern :=
  match input with
  | None => None               (* an init dictionary with a base URL: TypeError *)
  | Some pattern_string =>
      match parse_url base, tokenize pattern_string None with
      | Some b, Some ts =>
          match split_search ts false with
          | Some (path_tokens, search_tokens) =>
              let prefix :=
                if is_absolute_pathname path_tokens then []
                else match directory (url_pathname b) with
                     | Some d => literal d
                     | None => []
                     end in
              Some {| p_origin := origin b;
                      p_pathname := prefix ++ parts_of path_tokens 0;
                      p_search := match search_tokens with
                                  | Some q => parts_of q 0
                                  | None => [FullWildcard "0"]
                                  end;
                      p_hash := [FullWildcard "0"] |}
          | None => None
          end
      | _, _ => None
      end
  end.

(** *** Matching *)

(** [:name], the regular expression [[^d]+?] where [d] is the
    delimiter of the component: shortest first. *)
Definition lazy_group (delimiter : option ascii) (k : string -> option Groups)
    (name : string) : string -> string -> option Groups :=
  fix go (taken s : string) :=
    match s with
    | EmptyString => None
    | String c r =>
        if bool_decide (delimiter = Some c) then None
        else
          let taken' := taken +:+ String c EmptyString in
          match k r with
          | Some g => Some ((name, Some taken') :: g)
          | None => go taken' r
          end
    end.

(** ["*"], the regular expression [.*]: longest first. *)
Definition greedy_group (k : string -> option Groups) (name : string)
  : string -> string -> option Groups :=
  fix go (taken s : string) :=
    let here := match k s with
                | Some g => Some ((name, Some taken) :: g)
                | None => None
                end in
    match s with
    | EmptyString => here
    | String c r =>
        match go (taken +:+ String c EmptyString) r with
        | Some g => Some g
        | None => here
        end
    end.

(** A component matches when the whole input is consumed. *)
Fixpoint match_parts (delimiter : option ascii) (ps : list part) : string -> option Groups :=
  match ps with
  | [] => fun s => match s with EmptyString => Some [] | _ => None end
  | Fixed c :: rest =>
      fun s => match s with
               | String d r => if bool_decide (c = d) then match_parts delimiter rest r else None
               | EmptyString => None
               end
  | Segment name :: rest =>
      lazy_group delimiter (match_parts delimiter rest) name EmptyString
  | FullWildcard name :: rest =>
      greedy_group (match_parts delimiter rest) name EmptyString
  end.

(** [pattern.exec(input)] *)
Definition exec (p : Pattern) (candidate : PathInput) : option URLPatternResult :=
  match parse_url (String_ candidate) with
  | None => None
  | Some u =>
      if bool_decide (origin u = p_origin p) then
        match match_parts (Some slash) (p_pathname p) (url_pathname u),
              match_parts None (p_search p) (url_query u),
              match_parts None (p_hash p) (url_fragment u) with
        | Some gp, Some gs, Some gh =>
            Some {| pathname := mkComponent (url_pathname u) gp;
                    search := mkComponent (url_query u) gs;
                    hash := mkComponent (url_fragment u) gh |}
        | _, _, _ => None
        end
      else None
  end.

#[export] Instance api : URLPatternAPI := {|
  URLPattern := Pattern;
  URLPattern_new := construct;
  URLPattern_exec := exec
|}.

End WHATWG.

(** ** The router *)

Section Router.

(** [R] is the type of route results, [C] the caller's context
    ([CustomContext]) and [E] stands for every value that user code can
    throw and that is not a [RouterError]. *)
Context {R E C : Type} `{api : URLPatternAPI}.

(** [location.origin], the ambient default of [baseURL]. *)
Variable location_origin : string.

(** [T | null | undefined], what an action or a handler can hand
    back. *)
Inductive value : Type :=
| Undefined
| NullValue
| Val (r : R).

(** The left operand test of [??]. *)
Definition nullish (v : value) : bool :=
  match v with
  | Undefined | NullValue => true
  | Val _ => false
  end.

(** What can be thrown.  [RouterError status message] is an instance of
    the exported class [RouterError]; [TypeError] is what reading
    [.exec] of [undefined] throws; [Foreign e] is any other value. *)
Inductive thrown : Type :=
| RouterError (status : Z) (message : string)
| TypeError
| Foreign (e : E).

(** [e instanceof RouterError] *)
Definition instanceof_RouterError (e : thrown) : bool :=
  match e with
  | RouterError _ _ => true
  | _ => false
  end.

(** How a promise ends: with a value, with a rejection, or not at
    all. *)
Inductive outcome : Type :=
| Fulfilled (v : value)
| Rejected (e : thrown)
| Pending.

(** How a call of user code ends ([RouteResult<R>]): it returns a plain
    value, it returns a promise (given by its outcome), or it throws. *)
Inductive completion : Type :=
| Returns (v : value)
| ReturnsPromise (o : outcome)
| Throws (e : thrown).

(** [RouteContext].  Route objects are represented by their identity
    (see [Route]).  [next] is not a field: calling it is the [CallNext]
    step of a [script].  The [router] back-reference is not modelled: a
    re-entrant [router.resolve] is another top-level resolution. *)
Record RouteContext : Type := mkRouteContext {
  rc_context : optional C;
  rc_route : positive;
  rc_parent : option positive;
  rc_path : PathInput;
  rc_params : Groups
}.

(** The behaviour of an action, as far as the resolver can observe it:
    it ends ([Finish]) or it calls [next()] and goes on, possibly
    depending on how that promise settled. *)
Inductive script : Type :=
| Finish (c : completion)
| CallNext (k : outcome -> script).

#[local] Unset Elimination Schemes.
(** [Route].  [ident] is the identity of the JavaScript object, the key
    of the [WeakMap]; two occurrences of one object in a tree carry the
    same [ident].  (Induction over routes is [Route_nested_ind].) *)
Inductive Route : Type := mkRoute {
  ident : positive;
  path : string;
  children : optional (list Route);
  action : option (RouteContext -> script)
}.
#[local] Set Elimination Schemes.

(** [RouterErrorHandler]: called with (path, error, context). *)
Definition RouterErrorHandler : Type :=
  PathInput -> Z -> string -> optional C -> completion.

Record RouterOptions : Type := mkOptions {
  baseURL : PathInput;
  errorHandler : option RouterErrorHandler
}.

(** The private fields [#routes], [#patterns] and [#options]. *)
Record Router : Type := mkRouter {
  routes : list Route;
  patterns : gmap positive URLPattern;
  options : option RouterOptions
}.

(** The first argument of the constructor: an array or one route. *)
Inductive RoutesArg : Type :=
| Many (l : list Route)
| Single (r : Route).

(** *** Events and the effect monad *)

Inductive event : Type :=
| EvExec (route : positive) (p : PathInput)
    (* [this.#patterns.get(route).exec(path)] was evaluated *)
| EvAction (ctx : RouteContext)
    (* [route.action(ctx)] was invoked *)
| EvHandler (p : PathInput) (status : Z) (message : string) (ctx : optional C).
    (* [errorHandler(path, e, context)] was invoked *)

Definition Eff (A : Type) : Type := (A * list event)%type.

Definition ret {A} (a : A) : Eff A := (a, []).

Definition bind {A B} (m : Eff A) (f : A -> Eff B) : Eff B :=
  let '(a, t) := m in
  let '(b, t') := f a in
  (b, t ++ t').

Definition emit (e : event) : Eff unit := (tt, [e]).

Notation "'let*' x ':=' c 'in' k" := (bind c (fun x => k))
  (at level 10, x pattern, c at level 100, k at level 200).

Definition result_of {A} (m : Eff A) : A := fst m.
Definition trace_of {A} (m : Eff A) : list event := snd m.

(** *** [#patternize] *)

(** The [for] loop of [#patternize], over what one iteration does. *)
Definition patternize_loop
    (body : Route -> gmap positive URLPattern -> option (gmap positive URLPattern))
  : list Route -> gmap positive URLPattern -> option (gmap positive URLPattern) :=
  fix loop (rs : list Route) (tbl : gmap positive URLPattern) :=
    match rs with
    | [] => Some tbl
    | route :: rest =>
        match body route tbl with
        | Some tbl' => loop rest tbl'
        | None => None
        end
    end.

(** One iteration: compile, store under the route's identity, and
    descend when [route.children?.length] is truthy.  [None]: the
    [URLPattern] constructor threw. *)
Fixpoint patternize_route (parents : list (option string)) (route : Route)
    (tbl : gmap positive URLPattern) {struct route}
  : option (gmap positive URLPattern) :=
  let base := join "/" parents in
  let path' := stripJoiners (path route) in
  match URLPattern_new path' base with
  | None => None
  | Some pattern =>
      let tbl' := <[ident route := pattern]> tbl in
      match children route with
      | Present cs =>
          if (0 <? length cs)%nat
          then patternize_loop (patternize_route (parents ++ [path'])) cs tbl'
          else Some tbl'
      | _ => Some tbl'
      end
  end.

Definition patternize (rs : list Route) (parents : list (option string))
    (tbl : gmap positive URLPattern) : option (gmap positive URLPattern) :=
  patternize_loop (patternize_route parents) rs tbl.

(** The constructor; [None] when it throws. *)
Definition Router_new (rs : RoutesArg) (opts : option RouterOptions) : option Router :=
  let routes' := match rs with Many l => l | Single r => [r] end in
  let base := match opts with
              | Some o => String_ (baseURL o)
              | None => location_origin
              end in
  match patternize routes' [stripJoiners base] ∅ with
  | Some tbl => Some (mkRouter routes' tbl opts)
  | None => None
  end.

(** *** [#resolve] *)

(** Running an action: every [next()] it calls runs the continuation
    [next] again (nothing is memoised) and adds its events. *)
Fixpoint run_script (next : Eff outcome) (s : script) : Eff completion :=
  match s with
  | Finish c => ret c
  | CallNext k => let* o := next in run_script next (k o)
  end.

Section Resolve.

Variable table : gmap positive URLPattern.
Variable candidate : PathInput.
Variable context : optional C.

(** [new RouterError(404, `Page ${String(path)} is not found`)] *)
Definition not_found : thrown :=
  RouterError 404 ("Page " +:+ String_ candidate +:+ " is not found").

(** The [for] loop of [#resolve], over what happens on a match. *)
Definition resolve_loop (matched : Route -> URLPatternResult -> Eff outcome)
  : list Route -> Eff outcome :=
  fix loop (rs : list Route) :=
    match rs with
    | [] => ret (Rejected not_found)
    | route :: rest =>
        match table !! ident route with
        | None => ret (Rejected TypeError)
        | Some pattern =>
            let* _ := emit (EvExec (ident route) candidate) in
            match URLPattern_exec pattern candidate with
            | Some result => matched route result
            | None => loop rest
            end
        end
    end.

(** The body of [if (result) { ... }]. *)
Fixpoint on_match (route : Route) (parent : option positive)
    (result : URLPatternResult) {struct route} : Eff outcome :=
  let next : Eff outcome :=
    match children route with
    | Present cs =>
        resolve_loop (fun r res => on_match r (Some (ident route)) res) cs
    | _ => ret (Fulfilled Undefined)
    end in
  let ctx := {| rc_context := context;
                rc_route := ident route;
                rc_parent := parent;
                rc_path := candidate;
                rc_params := groups (search result) |} in
  let* c := match action route with
            | Some act => let* _ := emit (EvAction ctx) in run_script next (act ctx)
            | None => ret (Returns Undefined)
            end in
  match c with
  | Throws e => ret (Rejected e)
  | ReturnsPromise o => ret o
  | Returns v => if nullish v then next else ret (Fulfilled v)
  end.

Definition resolve_within (rs : list Route) (parent : option positive) : Eff outcome :=
  resolve_loop (fun r res => on_match r parent res) rs.

End Resolve.

(** *** [resolve] *)

(** [this.#options?.errorHandler] *)
Definition configured_handler (router : Router) : option RouterErrorHandler :=
  match options router with
  | Some o => errorHandler o
  | None => None
  end.

(** What the promise of an [async] function settles with when the
    function ends with [return <call>] . *)
Definition settle (c : completion) : outcome :=
  match c with
  | Returns v => Fulfilled v
  | ReturnsPromise o => o
  | Throws e => Rejected e
  end.

Definition resolve (router : Router) (p : PathInput) (ctx : optional C) : Eff outcome :=
  let* o := resolve_within (patterns router) p ctx (routes router) None in
  match o with
  | Rejected (RouterError status message) =>
      match configured_handler router with
      | Some handler =>
          let* _ := emit (EvHandler p status message ctx) in
          ret (settle (handler p status message ctx))
      | None => ret o
      end
  | _ => ret o
  end.

End Router.


(** ** Vocabulary of the properties *)

Section Vocabulary.

Context {R E C : Type} `{api : URLPatternAPI}.

Variable table : gmap positive URLPattern.
Variable candidate : PathInput.
Variable context : optional C.

(** The continuation [next] that [#resolve] builds for a matched
    route. *)
Definition next_of (route : Route (R:=R) (E:=E) (C:=C)) : Eff (C:=C) (outcome (R:=R) (E:=E)) :=
  match children route with
  | Present cs => resolve_within table candidate context cs (Some (ident route))
  | _ => ret (Fulfilled Undefined)
  end.

(** The [RouteContext] that [#resolve] hands to the action. *)
Definition context_for (route : Route (R:=R) (E:=E) (C:=C)) (parent : option positive)
    (result : URLPatternResult) : RouteContext (C:=C) :=
  {| rc_context := context;
     rc_route := ident route;
     rc_parent := parent;
     rc_path := candidate;
     rc_params := groups (search result) |}.

(** The matcher of [route] is in the table and rejects the
    candidate. *)
Definition unmatched (route : Route (R:=R) (E:=E) (C:=C)) : Prop :=
  exists pattern,
    table !! ident route = Some pattern /\ URLPattern_exec pattern candidate = None.

(** The matcher of [route] is in the table and accepts the candidate
    with [result]. *)
Definition matched (route : Route (R:=R) (E:=E) (C:=C)) (result : URLPatternResult) : Prop :=
  exists pattern,
    table !! ident route = Some pattern /\ URLPattern_exec pattern candidate = Some result.

(** [route] is the first sibling of [pre ++ route :: post] that
    matches. *)
Definition first_match (pre : list (Route (R:=R) (E:=E) (C:=C))) (route : Route)
    (result : URLPatternResult) : Prop :=
  Forall unmatched pre /\ matched route result.

(** The [exec] events of a run of siblings. *)
Definition scanned (rs : list (Route (R:=R) (E:=E) (C:=C))) : list (event (C:=C)) :=
  map (fun r => EvExec (ident r) candidate) rs.

(** [reaches rs parent route parent' result scan]: resolving against
    the siblings [rs] arrives at [route], matched with [result] under
    [parent'], through first matches that have no action (pass-through
    nodes) only; [scan] lists the matcher evaluations on the way. *)
Inductive reaches : list (Route (R:=R) (E:=E) (C:=C)) -> option positive -> Route ->
                    option positive -> URLPatternResult -> list (event (C:=C)) -> Prop :=
| reaches_here pre route post parent result :
    first_match pre route result ->
    reaches (pre ++ route :: post) parent route parent result
            (scanned pre ++ [EvExec (ident route) candidate])
| reaches_below pre via post parent via_result cs route parent' result scan :
    first_match pre via via_result ->
    action via = None ->
    children via = Present cs ->
    reaches cs (Some (ident via)) route parent' result scan ->
    reaches (pre ++ via :: post) parent route parent' result
            (scanned pre ++ [EvExec (ident via) candidate] ++ scan).

(** Every node that the resolution loop can encounter: the siblings
    and, recursively, the members of the [children] arrays. *)
Inductive node_of : list (Route (R:=R) (E:=E) (C:=C)) -> Route -> Prop :=
| node_here rs route : route ∈ rs -> node_of rs route
| node_below rs via cs route :
    via ∈ rs -> children via = Present cs -> node_of cs route -> node_of rs route.

Definition is_handler_event (e : event (C:=C)) : bool :=
  match e with
  | EvHandler _ _ _ _ => true
  | _ => false
  end.

(** The table [tbl'] knows every key of [tbl]. *)
Definition extends (tbl tbl' : gmap positive URLPattern) : Prop :=
  forall k, is_Some (tbl !! k) -> is_Some (tbl' !! k).

(** [tbl'] holds a pattern for [r] and for every node below it. *)
Definition covers (tbl' : gmap positive URLPattern) (r : Route (R:=R) (E:=E) (C:=C)) : Prop :=
  is_Some (tbl' !! ident r) /\
  forall cs r', children r = Present cs -> node_of cs r' -> is_Some (tbl' !! ident r').

(** A trace without a call of the error handler. *)
Definition quiet (t : list (event (C:=C))) : Prop :=
  Forall (fun e => is_handler_event e = false) t.

End Vocabulary.

(** ** Example routers *)

Module Examples.

Definition origin : string := "https://example.com".

Definition Res : Type := string.      (* route results *)
Definition Exn : Type := string.      (* foreign exceptions *)
Definition Ctx : Type := string.      (* caller's context *)

Abbreviation route := (Route (R:=Res) (E:=Exn) (C:=Ctx)).
Abbreviation router := (Router (R:=Res) (E:=Exn) (C:=Ctx) (api:=WHATWG.api)).

Definition returning (s : string) : RouteContext (C:=Ctx) -> script (R:=Res) (E:=Exn) :=
  fun _ => Finish (Returns (Val s)).

Definition no_handler : option (RouterOptions (R:=Res) (E:=Exn) (C:=Ctx)) :=
  Some (mkOptions (PathString origin) None).

(** [new Router(routes, options).resolve(path, context)], [None] when
    the constructor throws. *)
Definition construct_and_resolve (rs : RoutesArg) (opts : option RouterOptions)
    (p : PathInput) (ctx : optional Ctx) : option (Eff (C:=Ctx) (outcome (R:=Res) (E:=Exn))) :=
  match Router_new (api:=WHATWG.api) origin rs opts with
  | Some r => Some (resolve r p ctx)
  | None => None
  end.

(** The router that [new Router(routes, options)] builds (an empty one
    stands for a constructor that throws). *)
Definition the_router (rs : RoutesArg) (opts : option RouterOptions) : router :=
  default (mkRouter [] ∅ None) (Router_new (api:=WHATWG.api) origin rs opts).

(** [{ path: '/', action() {}, children: [{ path: '/', action: () => 'child' }] }] *)
Definition silent_parent : route :=
  mkRoute 1 "/"
    (Present [mkRoute 2 "/" Absent (Some (returning "child"))])
    (Some (fun _ => Finish (Returns Undefined))).

(** [{ path: '/users/:id', action: () => 'user' }] *)
Definition user_route : route :=
  mkRoute 1 "/users/:id" Absent (Some (returning "user")).

(** [{ path: '/base', children: [{ path: 'sub', action: () => 'sub page' }] }] *)
Definition sub_route : route :=
  mkRoute 2 "sub" Absent (Some (returning "sub page")).
Definition base_route : route :=
  mkRoute 1 "/base" (Present [sub_route]) None.

(** [{ path: '/', action() { throw new RouterError(403, 'Forbidden') } }] *)
Definition forbidden_route : route :=
  mkRoute 1 "/" Absent (Some (fun _ => Finish (Throws (RouterError 403 "Forbidden")))).

(** [{ path: '/', action() { throw 'boom' } }] *)
Definition crashing_route : route :=
  mkRoute 1 "/" Absent (Some (fun _ => Finish (Throws (Foreign "boom")))).

(** [{ path: '/foo', action: () => 'foo' }] *)
Definition foo_route : route :=
  mkRoute 1 "/foo" Absent (Some (returning "foo")).

(** [{ baseURL: origin, errorHandler: () => 'fallback' }] *)
Definition with_fallback : option (RouterOptions (R:=Res) (E:=Exn) (C:=Ctx)) :=
  Some (mkOptions (PathString origin) (Some (fun _ _ _ _ => Returns (Val "fallback")))).

(** [{ path: '/:page', action: () => 'page' }], declared after
    [foo_route]. *)
Definition page_route : route :=
  mkRoute 2 "/:page" Absent (Some (returning "page")).

(** [{ path: '/', children: [] }] and [{ path: '/' }] *)
Definition hollow_route : route := mkRoute 1 "/" (Present []) None.
Definition bare_route : route := mkRoute 1 "/" Absent None.

Definition home : PathInput := PathString "https://example.com/".
Definition foo_url : PathInput := PathString "https://example.com/foo".
Definition bar_url : PathInput := PathString "https://example.com/bar".
Definition user_url : PathInput := PathString "https://example.com/users/42".
Definition sub_url : PathInput := PathString "https://example.com/sub".
Definition base_sub_url : PathInput := PathString "https://example.com/base/sub".

(** What the platform reports when ["/"] is matched against [home]. *)
Definition home_result : URLPatternResult :=
  mkResult (mkComponent "/" []) (mkComponent "" [("0", Some "")])
           (mkComponent "" [("0", Some "")]).

(** What the platform reports for ["/foo"] and ["/:page"] against
    [foo_url], and for ["/users/:id"] against [user_url]. *)
Definition foo_result : URLPatternResult :=
  mkResult (mkComponent "/foo" []) (mkComponent "" [("0", Some "")])
           (mkComponent "" [("0", Some "")]).
Definition page_result : URLPatternResult :=
  mkResult (mkComponent "/foo" [("page", Some "foo")]) (mkComponent "" [("0", Some "")])
           (mkComponent "" [("0", Some "")]).
Definition user_result : URLPatternResult :=
  mkResult (mkComponent "/users/42" [("id", Some "42")]) (mkComponent "" [("0", Some "")])
           (mkComponent "" [("0", Some "")]).

End Examples.

(** ** Vocabulary of the further properties *)

(** Strings made of separators only. *)
Fixpoint only_slashes (s : string) : bool :=
  match s with
  | EmptyString => true
  | String c r => is_slash c && only_slashes r
  end.

Definition starts_with_slash (s : string) : bool :=
  match s with
  | String c _ => is_slash c
  | EmptyString => false
  end.

Fixpoint ends_with_slash (s : string) : bool :=
  match s with
  | EmptyString => false
  | String c EmptyString => is_slash c
  | String _ r => ends_with_slash r
  end.

(** The two bytes that complete U+2028 or U+2029 after the byte 226. *)
Definition completes_separator (r : string) : bool :=
  match r with
  | String "128"%char (String d _) =>
      bool_decide (d = "168"%char) || bool_decide (d = "169"%char)
  | _ => false
  end.

Section FurtherVocabulary.

Context {R E C : Type} `{api : URLPatternAPI}.

(** The array that the constructor keeps in [#routes]. *)
Definition routes_of (arg : RoutesArg (R:=R) (E:=E) (C:=C)) : list Route :=
  match arg with
  | Many l => l
  | Single r => [r]
  end.

(** The first element of [parents] at the root:
    [stripJoiners(String(options?.baseURL ?? location.origin))]. *)
Definition root_parents (location_origin : string)
    (opts : option (RouterOptions (R:=R) (E:=E) (C:=C))) : list (option string) :=
  [stripJoiners (match opts with
                 | Some o => String_ (baseURL o)
                 | None => location_origin
                 end)].

(** [occurs rs parents r ps]: the node [r] occurs in the tree below the
    siblings [rs], which [#patternize] visits with [parents], and [ps]
    is the value of [parents] when [r] itself is visited (the stripped
    segments of its ancestors, appended in order). *)
Inductive occurs : list (Route (R:=R) (E:=E) (C:=C)) -> list (option string) ->
                   Route -> list (option string) -> Prop :=
| occurs_here rs parents r : r ∈ rs -> occurs rs parents r parents
| occurs_below rs parents via cs r ps :
    via ∈ rs -> children via = Present cs ->
    occurs cs (parents ++ [stripJoiners (path via)]) r ps ->
    occurs rs parents r ps.

(** What [#patternize] computes for a node visited with [ps]. *)
Definition compiled (r : Route (R:=R) (E:=E) (C:=C)) (ps : list (option string))
  : option URLPattern :=
  URLPattern_new (stripJoiners (path r)) (join "/" ps).

(** The entry [pattern] under the key [i] was written when [r], visited
    with [parents], or a node below it was compiled. *)
Definition compiled_at (parents : list (option string))
    (r : Route (R:=R) (E:=E) (C:=C)) (i : positive) (pattern : URLPattern) : Prop :=
  (i = ident r /\ compiled r parents = Some pattern) \/
  exists cs r' ps, children r = Present cs /\
                   occurs cs (parents ++ [stripJoiners (path r)]) r' ps /\
                   ident r' = i /\ compiled r' ps = Some pattern.

(** [placed rs parent r par]: [r] is in the tree below the siblings
    [rs], whose parent is [parent], and [par] is the parent of [r]
    itself. *)
Inductive placed : list (Route (R:=R) (E:=E) (C:=C)) -> option positive ->
                   Route -> option positive -> Prop :=
| placed_here rs parent r : r ∈ rs -> placed rs parent r parent
| placed_below rs parent via cs r par :
    via ∈ rs -> children via = Present cs ->
    placed cs (Some (ident via)) r par ->
    placed rs parent r par.

(** What every event of a traversal of [rs] against [p] looks like. *)
Definition traversal_event (table : gmap positive URLPattern) (p : PathInput)
    (ctx : optional C) (rs : list (Route (R:=R) (E:=E) (C:=C)))
    (parent : option positive) (e : event (C:=C)) : Prop :=
  match e with
  | EvExec i q =>
      q = p /\ exists r par, placed rs parent r par /\ ident r = i /\ is_Some (table !! i)
  | EvAction c =>
      rc_context c = ctx /\ rc_path c = p /\
      exists r par result,
        placed rs parent r par /\ rc_route c = ident r /\ rc_parent c = par /\
        matched table p r result /\ rc_params c = groups (search result) /\
        is_Some (action r)
  | EvHandler _ _ _ _ => False
  end.

(** [delegates table p ctx via parent result before]: the matched node
    [via] leaves its resolution to the [next()] that the resolver calls
    itself, either because it has no action ([before] is empty) or
    because its action returned [null] or [undefined] itself ([before]
    is the action call and the events of the [next()] calls the action
    made). *)
Definition delegates (table : gmap positive URLPattern) (p : PathInput)
    (ctx : optional C) (via : Route (R:=R) (E:=E) (C:=C)) (parent : option positive)
    (result : URLPatternResult) (before : list (event (C:=C))) : Prop :=
  (action via = None /\ before = []) \/
  exists act v t,
    action via = Some act /\
    run_script (next_of table p ctx via) (act (context_for p ctx via parent result))
      = (Returns v, t) /\
    nullish v = true /\
    before = EvAction (context_for p ctx via parent result) :: t.

(** [arrives table p ctx rs parent route parent' result scan]: resolving
    against the siblings [rs] arrives at [route], matched with [result]
    under [parent'], through first matches that delegate; [scan] lists
    the events on the way, the evaluation of [route]'s matcher
    included. *)
Inductive arrives (table : gmap positive URLPattern) (p : PathInput) (ctx : optional C) :
    list (Route (R:=R) (E:=E) (C:=C)) -> option positive -> Route ->
    option positive -> URLPatternResult -> list (event (C:=C)) -> Prop :=
| arrives_here pre route post parent result :
    first_match table p pre route result ->
    arrives table p ctx (pre ++ route :: post) parent route parent result
            (scanned p pre ++ [EvExec (ident route) p])
| arrives_through pre via post parent via_result before cs route parent' result scan :
    first_match table p pre via via_result ->
    delegates table p ctx via parent via_result before ->
    children via = Present cs ->
    arrives table p ctx cs (Some (ident via)) route parent' result scan ->
    arrives table p ctx (pre ++ via :: post) parent route parent' result
            (scanned p pre ++ [EvExec (ident via) p] ++ before ++ scan).

End FurtherVocabulary.

(** ** Further example routers *)

Module FurtherExamples.

Import Examples.

(** [{ path: '/:section', children: [{ path: 'inner', action: () => 'inner' }] }],
    declared in front of [page_route]. *)
Definition inner_route : route :=
  mkRoute 3 "inner" Absent (Some (returning "inner")).
Definition section_route : route :=
  mkRoute 1 "/:section" (Present [inner_route]) None.

(** What the platform reports for ["/:section"] against [foo_url]. *)
Definition section_result : URLPatternResult :=
  mkResult (mkComponent "/foo" [("section", Some "foo")]) (mkComponent "" [("0", Some "")])
           (mkComponent "" [("0", Some "")]).

(** [{ path: '/*', children: [{ path: '*', action: () => 'parent',
       children: [{ path: '*', action: () => 'child' }] }] }] *)
Definition star_child : route :=
  mkRoute 2 "*" Absent (Some (returning "child")).
Definition keeper_route : route :=
  mkRoute 1 "*" (Present [star_child]) (Some (returning "parent")).
Definition shell_route : route :=
  mkRoute 10 "/*" (Present [keeper_route]) None.

(** A URL that the three patterns of [shell_route] accept, and what the
    platform reports: ["/*"] for the first two levels, ["/\*/*"] (the
    base path is taken literally) for the third. *)
Definition star_url : PathInput := PathString "https://example.com/*/z".
Definition shell_result : URLPatternResult :=
  mkResult (mkComponent "/*/z" [("0", Some "*/z")]) (mkComponent "" [("0", Some "")])
           (mkComponent "" [("0", Some "")]).
Definition star_child_result : URLPatternResult :=
  mkResult (mkComponent "/*/z" [("0", Some "z")]) (mkComponent "" [("0", Some "")])
           (mkComponent "" [("0", Some "")]).

(** [{ path: '/', action() {}, children: [{ path: '/', action() { throw 'boom' } }] }] *)
Definition exploding_child : route :=
  mkRoute 2 "/" Absent (Some (fun _ => Finish (Throws (Foreign "boom")))).
Definition quiet_parent : route :=
  mkRoute 1 "/" (Present [exploding_child]) (Some (fun _ => Finish (Returns Undefined))).

(** [{ path: '/', action({ next }) { next(); return null; } }] *)
Definition calling_null_route : route :=
  mkRoute 1 "/" Absent (Some (fun _ => CallNext (fun _ => Finish (Returns NullValue)))).

(** [{ baseURL: origin, errorHandler(path, e) { throw e; } }] *)
Definition rethrowing : RouterErrorHandler (R:=Res) (E:=Exn) (C:=Ctx) :=
  fun _ status message _ => Throws (RouterError status message).
Definition with_rethrow : option (RouterOptions (R:=Res) (E:=Exn) (C:=Ctx)) :=
  Some (mkOptions (PathString origin) (Some rethrowing)).

(** The router built from [[foo_route]] after [page_route] was pushed
    onto the array it was given. *)
Definition stale_router : router :=
  mkRouter [foo_route; page_route]
           (patterns (the_router (Many [foo_route]) with_fallback))
           with_fallback.

End FurtherExamples.

(** ** Facts about the resolver *)

Section ResolverFacts.

Context {R E C : Type} `{api : URLPatternAPI}.

Implicit Types (table : gmap positive URLPattern) (p : PathInput)
  (ctx : optional C) (r route : Route (R:=R) (E:=E) (C:=C))
  (rs pre post cs : list (Route (R:=R) (E:=E) (C:=C)))
  (parent : option positive) (result : URLPatternResult)
  (o : outcome (R:=R) (E:=E)) (t : list (event (C:=C)))
  (K : Route (R:=R) (E:=E) (C:=C) -> URLPatternResult ->
       Eff (C:=C) (outcome (R:=R) (E:=E))).

(** *** The effect monad *)

Lemma bind_ret_l {A B} (a : A) (f : A -> Eff (C:=C) B) : bind (ret a) f = f a.
Proof. unfold bind, ret. now destruct (f a). Qed.

Lemma bind_pair {A B} (a : A) (t : list event) (f : A -> Eff (C:=C) B) :
  bind (a, t) f = (result_of (f a), t ++ trace_of (f a)).
Proof. unfold bind, result_of, trace_of. now destruct (f a). Qed.

Lemma eff_eta {A} (m : Eff (C:=C) A) : m = (result_of m, trace_of m).
Proof. now destruct m. Qed.

(** *** The loop over the siblings *)

Lemma resolve_loop_nil table p K :
  resolve_loop (R:=R) (E:=E) table p K [] = (Rejected (not_found p), []).
Proof. reflexivity. Qed.

Lemma resolve_loop_unmatched table p K r rs :
  unmatched table p r ->
  resolve_loop table p K (r :: rs) =
    (result_of (resolve_loop table p K rs),
     EvExec (ident r) p :: trace_of (resolve_loop table p K rs)).
Proof.
  intros (pattern & Hget & Hexec). cbn [resolve_loop].
  rewrite Hget, Hexec. unfold emit. now rewrite bind_pair.
Qed.

Lemma resolve_loop_matched table p K r rs result :
  matched table p r result ->
  resolve_loop table p K (r :: rs) =
    (result_of (K r result), EvExec (ident r) p :: trace_of (K r result)).
Proof.
  intros (pattern & Hget & Hexec). cbn [resolve_loop].
  rewrite Hget, Hexec. unfold emit. now rewrite bind_pair.
Qed.

(** The loop stops at the first match; what follows it is not looked
    at. *)
Lemma resolve_loop_first_match table p K pre r post result :
  first_match table p pre r result ->
  resolve_loop table p K (pre ++ r :: post) =
    (result_of (K r result),
     scanned p pre ++ EvExec (ident r) p :: trace_of (K r result)).
Proof.
  intros [Hpre Hr]. induction Hpre as [|x pre Hx _ IH]; cbn [app scanned map].
  - now apply resolve_loop_matched.
  - rewrite (resolve_loop_unmatched _ _ _ _ _ Hx), IH. reflexivity.
Qed.

Lemma resolve_loop_all_unmatched table p K rs :
  Forall (unmatched table p) rs ->
  resolve_loop (R:=R) (E:=E) table p K rs = (Rejected (not_found p), scanned p rs).
Proof.
  induction 1 as [|x rs Hx _ IH]; [reflexivity|].
  rewrite (resolve_loop_unmatched _ _ _ _ _ Hx), IH. reflexivity.
Qed.

Lemma resolve_within_first_match table p ctx parent pre r post result :
  first_match table p pre r result ->
  resolve_within table p ctx (pre ++ r :: post) parent =
    (result_of (on_match table p ctx r parent result),
     scanned p pre ++ EvExec (ident r) p ::
       trace_of (on_match table p ctx r parent result)).
Proof.
  intros Hfirst. unfold resolve_within.
  now rewrite (resolve_loop_first_match _ _ _ _ _ _ _ Hfirst).
Qed.

Lemma resolve_within_all_unmatched table p ctx parent rs :
  Forall (unmatched table p) rs ->
  resolve_within (R:=R) (E:=E) table p ctx rs parent =
    (Rejected (not_found p), scanned p rs).
Proof. intros Hall. unfold resolve_within. now rewrite resolve_loop_all_unmatched. Qed.

(** *** The body of a match *)

Lemma on_match_unfold table p ctx r parent result :
  on_match table p ctx r parent result =
    bind (match action r with
          | Some act =>
              bind (emit (EvAction (context_for p ctx r parent result)))
                   (fun _ => run_script (next_of table p ctx r)
                                        (act (context_for p ctx r parent result)))
          | None => ret (Returns Undefined)
          end)
         (fun c => match c with
                   | Throws e => ret (Rejected e)
                   | ReturnsPromise o => ret o
                   | Returns v => if nullish v then next_of table p ctx r
                                  else ret (Fulfilled v)
                   end).
Proof. destruct r; reflexivity. Qed.

(** A matched route without action is resolved by [next()]. *)
Lemma on_match_no_action table p ctx r parent result :
  action r = None ->
  on_match table p ctx r parent result = next_of table p ctx r.
Proof.
  intros Ha. rewrite on_match_unfold, Ha, bind_ret_l. reflexivity.
Qed.

(** A matched route with an action: the action runs, and [next()] is
    called by the resolver exactly when the action returned [null] or
    [undefined] itself. *)
Lemma on_match_action table p ctx r parent result act :
  action r = Some act ->
  on_match table p ctx r parent result =
    let run := run_script (next_of table p ctx r)
                          (act (context_for p ctx r parent result)) in
    let event := EvAction (context_for p ctx r parent result) in
    match result_of run with
    | Throws e => (Rejected e, event :: trace_of run)
    | ReturnsPromise o => (o, event :: trace_of run)
    | Returns v =>
        if nullish v
        then (result_of (next_of table p ctx r),
              event :: trace_of run ++ trace_of (next_of table p ctx r))
        else (Fulfilled v, event :: trace_of run)
    end.
Proof.
  intros Ha. rewrite on_match_unfold, Ha. cbn zeta.
  unfold emit. rewrite !bind_pair.
  destruct (run_script _ _) as [c t]. unfold result_of, trace_of, ret.
  destruct c as [v|o'|e]; cbn; rewrite ?app_nil_r; try reflexivity.
  destruct (nullish v); cbn; rewrite ?app_nil_r; reflexivity.
Qed.

Lemma run_script_finish (next : Eff outcome) (c : completion (R:=R) (E:=E)) :
  run_script (C:=C) next (Finish c) = (c, []).
Proof. reflexivity. Qed.

(** Resolution through pass-through nodes arrives at the body of the
    reached match. *)
Lemma resolve_within_reaches table p ctx rs parent r parent' result scan :
  reaches table p rs parent r parent' result scan ->
  resolve_within table p ctx rs parent =
    (result_of (on_match table p ctx r parent' result),
     scan ++ trace_of (on_match table p ctx r parent' result)).
Proof.
  induction 1 as [pre r post parent result Hfirst
                 |pre via post parent via_result cs r parent' result scan
                    Hfirst Hact Hcs _ IH].
  - rewrite (resolve_within_first_match _ _ _ _ _ _ _ _ Hfirst).
    now rewrite <- app_assoc.
  - rewrite (resolve_within_first_match _ _ _ _ _ _ _ _ Hfirst).
    rewrite (on_match_no_action _ _ _ _ _ _ Hact).
    unfold next_of. rewrite Hcs, IH. cbn [result_of trace_of fst snd app].
    now rewrite <- !app_assoc.
Qed.

End ResolverFacts.

(** ** Induction over route trees and the pattern table *)

Section TreeFacts.

Context {R E C : Type} `{api : URLPatternAPI}.

Implicit Types (table tbl : gmap positive URLPattern) (p : PathInput)
  (ctx : optional C) (r route : Route (R:=R) (E:=E) (C:=C))
  (rs cs : list (Route (R:=R) (E:=E) (C:=C)))
  (parents : list (option string)).

(** Induction on a route with the hypothesis for every member of its
    [children] array. *)
Lemma Route_nested_ind (P : Route (R:=R) (E:=E) (C:=C) -> Prop) :
  (forall r, (forall cs, children r = Present cs -> Forall P cs) -> P r) ->
  forall r, P r.
Proof.
  intros step. fix IH 1. intros [i s ch a]. apply step. cbn [children].
  destruct ch as [| |l]; intros cs Hcs; try discriminate.
  assert (Forall P l) as Hl.
  { clear Hcs. induction l as [|x l IHl]; constructor; [apply IH | exact IHl]. }
  congruence.
Qed.

Lemma node_of_nil r : ~ node_of (R:=R) (E:=E) (C:=C) [] r.
Proof.
  intros H. inversion H as [? ? Hin|? ? ? ? Hin]; subst; now apply elem_of_nil in Hin.
Qed.

(** *** [#patternize] stores a pattern for every node *)

Lemma extends_refl tbl : extends tbl tbl.
Proof. now intros k. Qed.

Lemma extends_trans tbl1 tbl2 tbl3 :
  extends tbl1 tbl2 -> extends tbl2 tbl3 -> extends tbl1 tbl3.
Proof. intros H12 H23 k Hk. auto. Qed.

Lemma extends_insert tbl k pattern : extends tbl (<[k := pattern]> tbl).
Proof.
  intros j Hj. destruct (decide (k = j)) as [->|Hne].
  - rewrite lookup_insert_eq. eauto.
  - now rewrite lookup_insert_ne.
Qed.

Lemma covers_extends tbl tbl' r : extends tbl tbl' -> covers tbl r -> covers tbl' r.
Proof. intros Hext [Hr Hbelow]. split; eauto. Qed.

Lemma patternize_loop_spec body rs :
  Forall (fun r => forall tbl tbl', body r tbl = Some tbl' ->
                     extends tbl tbl' /\ covers tbl' r) rs ->
  forall tbl tbl', patternize_loop body rs tbl = Some tbl' ->
    extends tbl tbl' /\ Forall (covers tbl') rs.
Proof.
  induction 1 as [|r rs Hr _ IH]; intros tbl tbl' Hloop; cbn [patternize_loop] in Hloop.
  - injection Hloop as <-. split; [apply extends_refl | constructor].
  - destruct (body r tbl) as [tbl1|] eqn:Hbody; [|discriminate].
    destruct (Hr _ _ Hbody) as [Hext1 Hcov1].
    destruct (IH _ _ Hloop) as [Hext2 Hcov2].
    split; [eapply extends_trans; eauto|].
    constructor; [eapply covers_extends; eauto | assumption].
Qed.

Lemma covers_node_of tbl rs r :
  Forall (covers tbl) rs -> node_of rs r -> is_Some (tbl !! ident r).
Proof.
  intros Hall Hnode. rewrite Forall_forall in Hall.
  destruct Hnode as [rs r Hin|rs via cs r Hin Hcs Hbelow].
  - now apply Hall.
  - destruct (Hall _ Hin) as [_ Hcov]. eauto.
Qed.

Lemma patternize_route_spec r :
  forall parents tbl tbl', patternize_route parents r tbl = Some tbl' ->
    extends tbl tbl' /\ covers tbl' r.
Proof.
  induction r as [r IH] using Route_nested_ind. intros parents tbl tbl' Hroute.
  destruct r as [i s ch a]. cbn [patternize_route path ident children] in *.
  destruct (URLPattern_new _ _) as [pattern|]; [|discriminate].
  assert (is_Some (<[i := pattern]> tbl !! i)) as Hi
    by (rewrite lookup_insert_eq; eauto).
  destruct ch as [| |cs].
  - injection Hroute as <-. split; [apply extends_insert|].
    split; [exact Hi | intros ? ? [=]].
  - injection Hroute as <-. split; [apply extends_insert|].
    split; [exact Hi | intros ? ? [=]].
  - destruct (0 <? length cs)%nat eqn:Hlen.
    + apply patternize_loop_spec in Hroute.
      * destruct Hroute as [Hext Hcov]. split.
        { eapply extends_trans; [apply extends_insert | exact Hext]. }
        split; [now apply Hext|].
        intros cs' r' [= <-] Hnode. eapply covers_node_of; eauto.
      * specialize (IH cs eq_refl). eapply Forall_impl; [exact IH|].
        intros r' Hr' tbl1 tbl2. apply Hr'.
    + injection Hroute as <-. split; [apply extends_insert|].
      split; [exact Hi|]. intros cs' r' [= <-] Hnode.
      destruct cs; [now apply node_of_nil in Hnode | discriminate].
Qed.

(** After construction every node of the tree is in the table. *)
Lemma Router_new_covers location_origin arg opts router :
  Router_new location_origin arg opts = Some router ->
  forall r, node_of (routes router) r -> is_Some (patterns router !! ident r).
Proof.
  unfold Router_new, patternize. intros Hnew r Hnode.
  destruct (patternize_loop _ _ _) as [tbl|] eqn:Hloop; [|discriminate].
  injection Hnew as <-. cbn [routes patterns] in *.
  apply patternize_loop_spec in Hloop.
  - destruct Hloop as [_ Hcov]. eapply covers_node_of; eauto.
  - apply Forall_forall. intros r' _ tbl1 tbl2. apply patternize_route_spec.
Qed.

(** *** The traversal never calls the error handler *)

Lemma run_script_quiet (next : Eff (C:=C) (outcome (R:=R) (E:=E))) s :
  quiet (trace_of next) -> quiet (trace_of (run_script next s)).
Proof.
  intros Hnext. induction s as [c|k IH]; cbn [run_script].
  - constructor.
  - destruct next as [o t]. rewrite bind_pair. cbn [trace_of snd] in *.
    apply Forall_app. split; [exact Hnext | apply IH].
Qed.

Lemma resolve_loop_quiet table p
    (K : Route (R:=R) (E:=E) (C:=C) -> URLPatternResult -> Eff (C:=C) (outcome (R:=R) (E:=E))) rs :
  Forall (fun r => forall result, quiet (trace_of (K r result))) rs ->
  quiet (trace_of (resolve_loop table p K rs)).
Proof.
  induction 1 as [|r rs Hr _ IH]; cbn [resolve_loop]; [constructor|].
  destruct (table !! ident r) as [pattern|]; [|constructor].
  unfold emit. rewrite bind_pair. cbn [trace_of snd app].
  constructor; [reflexivity|].
  destruct (URLPattern_exec pattern p); [apply Hr | exact IH].
Qed.

Lemma on_match_quiet table p ctx r :
  forall parent result, quiet (trace_of (on_match table p ctx r parent result)).
Proof.
  induction r as [r IH] using Route_nested_ind. intros parent result.
  assert (quiet (trace_of (next_of table p ctx r))) as Hnext.
  { unfold next_of. destruct (children r) as [| |cs] eqn:Hcs; try constructor.
    apply resolve_loop_quiet. specialize (IH cs eq_refl).
    eapply Forall_impl; [exact IH|]. intros r' Hr' result'. apply Hr'. }
  destruct (action r) as [act|] eqn:Hact.
  - rewrite (on_match_action _ _ _ _ _ _ _ Hact). cbn zeta.
    pose proof (run_script_quiet (next_of table p ctx r)
                  (act (context_for p ctx r parent result)) Hnext) as Hrun.
    destruct (result_of _) as [v|o|e]; cbn [trace_of snd].
    + destruct (nullish v); cbn [snd].
      * constructor; [reflexivity|]. apply Forall_app. now split.
      * constructor; [reflexivity | exact Hrun].
    + constructor; [reflexivity | exact Hrun].
    + constructor; [reflexivity | exact Hrun].
  - now rewrite (on_match_no_action _ _ _ _ _ _ Hact).
Qed.

Lemma resolve_within_quiet table p ctx rs parent :
  quiet (trace_of (resolve_within table p ctx rs parent)).
Proof.
  apply resolve_loop_quiet, Forall_forall. intros r _ result. apply on_match_quiet.
Qed.

End TreeFacts.

(** ** The properties of the specification *)

Section Claims.

Context {R E C : Type} `{api : URLPatternAPI}.

Implicit Types (table : gmap positive URLPattern) (p : PathInput)
  (ctx : optional C) (r route via : Route (R:=R) (E:=E) (C:=C))
  (rs pre post cs : list (Route (R:=R) (E:=E) (C:=C)))
  (parent : option positive) (result : URLPatternResult)
  (router : Router (R:=R) (E:=E) (C:=C))
  (o : outcome (R:=R) (E:=E)) (c : completion (R:=R) (E:=E))
  (t scan before : list (event (C:=C))).

(** [resolve] hands over what the traversal produced unless that is a
    [RouterError] and a handler is configured. *)
Lemma resolve_passes router p ctx o t :
  resolve_within (patterns router) p ctx (routes router) None = (o, t) ->
  (forall status message, o = Rejected (RouterError status message) ->
     configured_handler router = None) ->
  resolve router p ctx = (o, t).
Proof.
  intros Hin Hno. unfold resolve. rewrite Hin, bind_pair.
  destruct o as [v|[status message| |e]|]; cbn; rewrite ?app_nil_r; try reflexivity.
  rewrite (Hno _ _ eq_refl). cbn. now rewrite app_nil_r.
Qed.

Lemma resolve_handles router p ctx handler status message t :
  configured_handler router = Some handler ->
  resolve_within (patterns router) p ctx (routes router) None =
    (Rejected (RouterError status message), t) ->
  resolve router p ctx =
    (settle (handler p status message ctx), t ++ [EvHandler p status message ctx]).
Proof.
  intros Hh Hin. unfold resolve. rewrite Hin, bind_pair. cbn. now rewrite Hh.
Qed.

Lemma on_match_delegates table p ctx via parent result before :
  delegates table p ctx via parent result before ->
  on_match table p ctx via parent result =
    (result_of (next_of table p ctx via), before ++ trace_of (next_of table p ctx via)).
Proof.
  intros [[Hact ->]|(act & v & t & Hact & Hrun & Hnull & ->)].
  - rewrite (on_match_no_action _ _ _ _ _ _ Hact). apply eff_eta.
  - rewrite (on_match_action _ _ _ _ _ _ _ Hact). cbn zeta. rewrite Hrun.
    cbn [result_of trace_of fst snd]. now rewrite Hnull.
Qed.

(** Resolution through delegating nodes arrives at the body of the
    reached match. *)
Lemma resolve_within_arrives table p ctx rs parent r parent' result scan :
  arrives table p ctx rs parent r parent' result scan ->
  resolve_within table p ctx rs parent =
    (result_of (on_match table p ctx r parent' result),
     scan ++ trace_of (on_match table p ctx r parent' result)).
Proof.
  induction 1 as [pre r post parent result Hfirst
                 |pre via post parent via_result before cs r parent' result scan
                    Hfirst Hdel Hcs _ IH].
  - rewrite (resolve_within_first_match _ _ _ _ _ _ _ _ Hfirst).
    now rewrite <- app_assoc.
  - rewrite (resolve_within_first_match _ _ _ _ _ _ _ _ Hfirst).
    rewrite (on_match_delegates _ _ _ _ _ _ _ Hdel).
    unfold next_of. rewrite Hcs, IH. cbn [result_of trace_of fst snd app].
    f_equal. repeat (rewrite <- app_assoc; cbn [app]). reflexivity.
Qed.

(** Pass-through nodes delegate. *)
Lemma reaches_arrives table p ctx rs parent r parent' result scan :
  reaches table p rs parent r parent' result scan ->
  arrives table p ctx rs parent r parent' result scan.
Proof.
  induction 1 as [pre r post parent result Hfirst
                 |pre via post parent via_result cs r parent' result scan
                    Hfirst Hact Hcs _ IH].
  - now constructor.
  - apply (arrives_through _ _ _ pre via post parent via_result [] cs r parent' result scan);
      auto. left. auto.
Qed.

(** What the body of a match with an action does, by the way the action
    completes. *)
Lemma on_match_completes table p ctx r parent result act c t :
  action r = Some act ->
  run_script (next_of table p ctx r) (act (context_for p ctx r parent result)) = (c, t) ->
  on_match table p ctx r parent result =
    match c with
    | Throws e => (Rejected e, EvAction (context_for p ctx r parent result) :: t)
    | ReturnsPromise o => (o, EvAction (context_for p ctx r parent result) :: t)
    | Returns v =>
        if nullish v
        then (result_of (next_of table p ctx r),
              EvAction (context_for p ctx r parent result) :: t ++
                trace_of (next_of table p ctx r))
        else (Fulfilled v, EvAction (context_for p ctx r parent result) :: t)
    end.
Proof.
  intros Hact Hrun. rewrite (on_match_action _ _ _ _ _ _ _ Hact). cbn zeta.
  now rewrite Hrun.
Qed.

(** C1 (as amended).  At any depth: when resolution arrives, through
    first matches that delegate, at a first matching sibling that defines
    an action, and the action returns a value other than
    [null]/[undefined], or a promise, the traversal settles as that value
    or that promise does, and [resolve] returns the value when there is
    one; after the action call the only events are those of the [next()]
    calls the action makes itself, none when it makes none: the node's
    children are not tested.  When the action returns [null] or
    [undefined] itself, the resolver calls [next()] in its place and the
    result is that of [next()]. *)
Theorem action_decides_unless_nullish router p ctx r parent' result scan act c t :
  arrives (patterns router) p ctx (routes router) None r parent' result scan ->
  action r = Some act ->
  run_script (next_of (patterns router) p ctx r)
             (act (context_for p ctx r parent' result)) = (c, t) ->
  let before := scan ++ [EvAction (context_for p ctx r parent' result)] in
  (forall c0, act (context_for p ctx r parent' result) = Finish c0 -> c = c0 /\ t = [])
  /\ ((forall v, c = Returns v -> nullish v = false) ->
      resolve_within (patterns router) p ctx (routes router) None
        = (settle c, before ++ t)
      /\ forall v, settle c = Fulfilled v ->
           resolve router p ctx = (Fulfilled v, before ++ t))
  /\ (forall v, c = Returns v -> nullish v = true ->
      resolve_within (patterns router) p ctx (routes router) None
        = (result_of (next_of (patterns router) p ctx r),
           before ++ t ++ trace_of (next_of (patterns router) p ctx r))).
Proof.
  intros Harr Hact Hrun before.
  pose proof (resolve_within_arrives _ _ _ _ _ _ _ _ _ Harr) as Hin.
  rewrite (on_match_completes _ _ _ _ _ _ _ _ _ Hact Hrun) in Hin.
  subst before. rewrite <- !app_assoc. cbn [app].
  split; [|split].
  - intros c0 Hfin. rewrite Hfin in Hrun. injection Hrun as <- <-. auto.
  - intros Hnn.
    assert (resolve_within (patterns router) p ctx (routes router) None =
            (settle c, scan ++ EvAction (context_for p ctx r parent' result) :: t))
      as Hin'.
    { rewrite Hin. destruct c as [v|o|e]; try reflexivity.
      now rewrite (Hnn v eq_refl). }
    split; [exact Hin'|]. intros v Hv. apply resolve_passes.
    + now rewrite Hin', Hv.
    + discriminate.
  - intros v -> Hnull. rewrite Hin, Hnull. reflexivity.
Qed.

(** C2 (as amended).  On a constructed router, a path that matches no
    node at any depth makes the traversal fail with
    [RouterError(404, "Page <path> is not found")] after every root
    sibling was tested; [resolve] surfaces that failure when no
    [errorHandler] is configured and returns what the handler returns
    when one is.  A 404 raised at a nested level, where no child of a
    delegating node matches, reaches the top of the traversal unchanged
    and is what [resolve] fails with when no handler is configured. *)
Theorem unmatched_path_is_not_found location_origin arg opts router p ctx :
  Router_new location_origin arg opts = Some router ->
  let message := "Page " +:+ String_ p +:+ " is not found" in
  let failure : outcome (R:=R) (E:=E) := Rejected (RouterError 404 message) in
  ((forall r pattern, node_of (routes router) r ->
      patterns router !! ident r = Some pattern ->
      URLPattern_exec pattern p = None) ->
   resolve_within (patterns router) p ctx (routes router) None
     = (failure, scanned p (routes router))
   /\ (configured_handler router = None ->
       resolve router p ctx = (failure, scanned p (routes router)))
   /\ (forall handler : RouterErrorHandler (R:=R) (E:=E) (C:=C),
       configured_handler router = Some handler ->
       resolve router p ctx =
         (settle (handler p 404%Z message ctx),
          scanned p (routes router) ++ [EvHandler p 404%Z message ctx])))
  /\ (forall via parent' result scan before cs,
        arrives (patterns router) p ctx (routes router) None via parent' result scan ->
        delegates (patterns router) p ctx via parent' result before ->
        children via = Present cs ->
        Forall (unmatched (patterns router) p) cs ->
        resolve_within (patterns router) p ctx (routes router) None
          = (failure, scan ++ before ++ scanned p cs)
        /\ (configured_handler router = None ->
            resolve router p ctx = (failure, scan ++ before ++ scanned p cs))).
Proof.
  intros Hnew message failure. split.
  - intros Hnone.
    assert (resolve_within (patterns router) p ctx (routes router) None
            = (failure, scanned p (routes router))) as Hin.
    { apply resolve_within_all_unmatched, Forall_forall. intros r Hr.
      assert (node_of (routes router) r) as Hnode by now constructor.
      destruct (Router_new_covers _ _ _ _ Hnew r Hnode) as [pattern Hget].
      exists pattern. eauto. }
    split; [exact Hin|]. split.
    + intros Hno. apply resolve_passes; auto.
    + intros handler Hh. exact (resolve_handles _ _ _ _ _ _ _ Hh Hin).
  - intros via parent' result scan before cs Harr Hdel Hcs Hall.
    assert (resolve_within (patterns router) p ctx (routes router) None
            = (failure, scan ++ before ++ scanned p cs)) as Hin.
    { rewrite (resolve_within_arrives _ _ _ _ _ _ _ _ _ Harr).
      rewrite (on_match_delegates _ _ _ _ _ _ _ Hdel). unfold next_of. rewrite Hcs.
      now rewrite (resolve_within_all_unmatched _ _ _ _ _ Hall). }
    split; [exact Hin|]. intros Hno. apply resolve_passes; auto.
Qed.

(** C3.  With an [errorHandler] configured, a traversal that ends in a
    [RouterError] (the 404 of an unmatched path in particular) makes
    [resolve] call the handler with (path, error, context), once and
    after the whole traversal, during which it is never called; what
    the handler returns is what [resolve] returns, so a handler that
    returns a value leaves no failure for the caller. *)
Theorem handler_called_once_at_top router p ctx handler status message t :
  configured_handler router = Some handler ->
  resolve_within (patterns router) p ctx (routes router) None =
    (Rejected (RouterError status message), t) ->
  resolve router p ctx =
    (settle (handler p status message ctx), t ++ [EvHandler p status message ctx])
  /\ quiet t
  /\ filter (fun e => is_handler_event e = true) (trace_of (resolve router p ctx))
     = [EvHandler p status message ctx]
  /\ (forall v, handler p status message ctx = Returns v \/
                handler p status message ctx = ReturnsPromise (Fulfilled v) ->
        result_of (resolve router p ctx) = Fulfilled v).
Proof.
  intros Hh Hin. pose proof (resolve_handles _ _ _ _ _ _ _ Hh Hin) as Hres.
  assert (quiet t) as Hquiet.
  { pose proof (resolve_within_quiet (patterns router) p ctx (routes router) None) as Hq.
    now rewrite Hin in Hq. }
  split; [exact Hres|]. split; [exact Hquiet|]. split.
  - rewrite Hres. cbn [trace_of snd]. rewrite filter_app.
    replace (filter _ t) with (@nil (event (C:=C))); [reflexivity|].
    symmetry. clear -Hquiet. induction Hquiet as [|e t He _ IH]; [reflexivity|].
    rewrite filter_cons, He. cbn. rewrite <- IH.
    destruct (decide (false = true)); [discriminate | reflexivity].
  - intros v [Hv|Hv]; rewrite Hres, Hv; reflexivity.
Qed.

(** C5.  The first sibling that matches is the one that is used,
    whatever is declared after it.  The siblings in front of it are
    tested in order and rejected; then its action is called with its own
    match, and the outcome is what that action returns, or that of
    [next()] on its own children when it has no action or its action
    returned [null]/[undefined]; no later sibling's matcher or action is
    evaluated. *)
Theorem first_match_wins table p ctx parent pre r post result :
  first_match table p pre r result ->
  let first := context_for p ctx r parent result in
  let next := next_of table p ctx r in
  let tested := scanned p pre ++ [EvExec (ident r) p] in
  resolve_within table p ctx (pre ++ r :: post) parent
    = match action r with
      | None => (result_of next, tested ++ trace_of next)
      | Some act =>
          let run := run_script next (act first) in
          match result_of run with
          | Throws e => (Rejected e, tested ++ EvAction first :: trace_of run)
          | ReturnsPromise o => (o, tested ++ EvAction first :: trace_of run)
          | Returns v =>
              if nullish v
              then (result_of next,
                    tested ++ EvAction first :: trace_of run ++ trace_of next)
              else (Fulfilled v, tested ++ EvAction first :: trace_of run)
          end
      end
  /\ forall post',
       resolve_within table p ctx (pre ++ r :: post') parent
       = resolve_within table p ctx (pre ++ r :: post) parent.
Proof.
  intros Hfirst first next tested.
  split; [|intros post';
           now rewrite !(resolve_within_first_match _ _ _ _ _ _ _ _ Hfirst)].
  rewrite (resolve_within_first_match _ _ _ _ _ _ _ _ Hfirst).
  subst tested. destruct (action r) as [act|] eqn:Hact.
  - rewrite (on_match_action _ _ _ _ _ _ _ Hact). cbn zeta. fold first next.
    destruct (run_script next (act first)) as [c t].
    unfold result_of, trace_of. cbn [fst snd].
    destruct c as [v|o|e]; [destruct (nullish v)|..]; cbn [fst snd];
      now rewrite <- app_assoc.
  - rewrite (on_match_no_action _ _ _ _ _ _ Hact). fold next.
    unfold result_of, trace_of. now rewrite <- app_assoc.
Qed.

(** C7 (as amended).  A failure raised by the action of a node that
    resolution arrives at (thrown, or the rejection of the promise it
    returns, be it the rejection of a [next()] it drives) comes out of
    the traversal unchanged, also below nodes whose [next()] the
    resolver drives itself.  It reaches the caller of [resolve]
    unchanged, with no handler call, when it is not a [RouterError],
    handler or not, and whenever no handler is configured.  A
    [RouterError] raised by the action with a handler configured is
    handed to the handler, whose completion is the result. *)
Theorem action_failure_propagates router p ctx r parent' result scan act c t e :
  arrives (patterns router) p ctx (routes router) None r parent' result scan ->
  action r = Some act ->
  run_script (next_of (patterns router) p ctx r)
             (act (context_for p ctx r parent' result)) = (c, t) ->
  c = Throws e \/ c = ReturnsPromise (Rejected e) ->
  let trace := scan ++ EvAction (context_for p ctx r parent' result) :: t in
  resolve_within (patterns router) p ctx (routes router) None = (Rejected e, trace)
  /\ (instanceof_RouterError e = false \/ configured_handler router = None ->
      resolve router p ctx = (Rejected e, trace)
      /\ quiet (trace_of (resolve router p ctx)))
  /\ (forall handler status message,
        e = RouterError status message ->
        configured_handler router = Some handler ->
        resolve router p ctx =
          (settle (handler p status message ctx),
           trace ++ [EvHandler p status message ctx])).
Proof.
  intros Harr Hact Hrun Hc trace.
  assert (resolve_within (patterns router) p ctx (routes router) None
          = (Rejected e, trace)) as Hin.
  { rewrite (resolve_within_arrives _ _ _ _ _ _ _ _ _ Harr).
    rewrite (on_match_completes _ _ _ _ _ _ _ _ _ Hact Hrun).
    destruct Hc as [-> | ->]; reflexivity. }
  split; [exact Hin|]. split.
  - intros Hpass.
    assert (resolve router p ctx = (Rejected e, trace)) as Hres.
    { apply resolve_passes; [exact Hin|]. intros status message [= ->].
      destruct Hpass as [Hp|Hp]; [discriminate | exact Hp]. }
    split; [exact Hres|]. rewrite Hres.
    pose proof (resolve_within_quiet (patterns router) p ctx (routes router) None) as Hq.
    now rewrite Hin in Hq.
  - intros handler status message -> Hh.
    exact (resolve_handles _ _ _ _ _ _ _ Hh Hin).
Qed.

(** C8.  When resolution arrives at a node that has neither an action
    nor children (the property is absent or [null]), [resolve] is
    fulfilled with [undefined]: no failure, no handler call, nothing
    evaluated after the node's matcher. *)
Theorem leaf_without_action_is_undefined router p ctx r parent' result scan :
  reaches (patterns router) p (routes router) None r parent' result scan ->
  action r = None ->
  children r = Absent \/ children r = Null ->
  resolve router p ctx = (Fulfilled Undefined, scan).
Proof.
  intros Hreach Hact Hch. apply resolve_passes; [|discriminate].
  rewrite (resolve_within_reaches _ _ _ _ _ _ _ _ _ Hreach).
  rewrite (on_match_no_action _ _ _ _ _ _ Hact). unfold next_of.
  destruct Hch as [-> | ->]; cbn; now rewrite app_nil_r.
Qed.

(** C9.  When resolution arrives at a node without action whose
    [children] is an empty array, [next()] recurses into the empty list
    and the traversal fails with the 404 [RouterError], which [resolve]
    surfaces when no handler is configured; [next()] answers
    [undefined] without testing anything exactly when [children] is
    absent or [null]. *)
Theorem empty_children_is_not_found router p ctx r parent' result scan :
  reaches (patterns router) p (routes router) None r parent' result scan ->
  action r = None ->
  children r = Present [] ->
  let failure : outcome (R:=R) (E:=E) :=
    Rejected (RouterError 404 ("Page " +:+ String_ p +:+ " is not found")) in
  next_of (patterns router) p ctx r = (failure, [])
  /\ resolve_within (patterns router) p ctx (routes router) None = (failure, scan)
  /\ (configured_handler router = None -> resolve router p ctx = (failure, scan))
  /\ (forall table r0,
        next_of (R:=R) (E:=E) table p ctx r0 = (Fulfilled Undefined, []) <->
        children r0 = Absent \/ children r0 = Null).
Proof.
  intros Hreach Hact Hch failure.
  assert (next_of (patterns router) p ctx r = (failure, [])) as Hnext
    by (unfold next_of; now rewrite Hch).
  assert (resolve_within (patterns router) p ctx (routes router) None = (failure, scan))
    as Hin.
  { rewrite (resolve_within_reaches _ _ _ _ _ _ _ _ _ Hreach).
    rewrite (on_match_no_action _ _ _ _ _ _ Hact), Hnext. cbn.
    now rewrite app_nil_r. }
  split; [exact Hnext|]. split; [exact Hin|]. split.
  - intros Hno. apply resolve_passes; auto.
  - intros table r0. unfold next_of. split.
    + destruct (children r0) as [| |cs]; auto.
      destruct cs as [|x cs]; [discriminate|].
      unfold resolve_within. cbn [resolve_loop].
      destruct (table !! ident x); [|discriminate].
      unfold emit. rewrite bind_pair. discriminate.
    + now intros [-> | ->].
Qed.

(** C10.  After construction the pattern table holds a pattern for
    every node the resolution loop can encounter: the root siblings
    and, recursively, the members of every [children] array; the lookup
    [this.#patterns.get(route)] is never [undefined] on them. *)
Theorem every_node_has_a_pattern location_origin arg opts router :
  Router_new location_origin arg opts = Some router ->
  forall r, node_of (routes router) r ->
    exists pattern, patterns router !! ident r = Some pattern.
Proof.
  intros Hnew r Hnode. exact (Router_new_covers _ _ _ _ Hnew r Hnode).
Qed.

End Claims.

(** ** The properties on the example routers *)

Module Instances.

Import Examples FurtherExamples.

Local Ltac compute_eq := vm_compute; reflexivity.

Local Ltac by_matching := eexists; split; compute_eq.

(** C1, counterexample.  The first match defines an action that
    returns [undefined] and never calls [next()]; yet the child's
    matcher and action are evaluated and [resolve] returns the child's
    value, not the action's. *)
Lemma silent_action_delegates :
  let router := the_router (Single silent_parent) no_handler in
  let first := context_for (R:=Res) (E:=Exn) home Absent silent_parent None home_result in
  routes router = [silent_parent]
  /\ matched (patterns router) home silent_parent home_result
  /\ (exists act, action silent_parent = Some act /\
                  act first = Finish (Returns Undefined))
  /\ resolve router home Absent =
       (Fulfilled (Val "child"),
        [EvExec 1 home; EvAction first;
         EvExec 2 home;
         EvAction (mkRouteContext Absent 2 (Some 1%positive) home [("0", Some "")])])
  /\ result_of (resolve router home Absent) <> Fulfilled Undefined.
Proof.
  cbv zeta. split; [compute_eq|]. split; [by_matching|].
  split; [eexists; split; reflexivity|]. split; [compute_eq|].
  vm_compute. discriminate.
Qed.

(** On [shell_route], below a node without action: the action of
    [keeper_route] returns a value, which is the result; its child,
    whose pattern accepts the URL too, is not tested. *)
Lemma action_decides_unless_nullish_witness :
  let router := the_router (Single shell_route) no_handler in
  matched (patterns router) star_url star_child star_child_result
  /\ resolve router star_url Absent =
       (Fulfilled (Val "parent"),
        [EvExec 10 star_url; EvExec 1 star_url;
         EvAction (mkRouteContext Absent 1 (Some 10%positive) star_url [("0", Some "")])]).
Proof.
  cbv zeta. split; [by_matching|].
  pose proof (action_decides_unless_nullish
                (the_router (Single shell_route) no_handler) star_url Absent
                keeper_route (Some 10%positive) shell_result
                (scanned star_url (@nil route) ++ [EvExec 10 star_url] ++ [] ++
                 (scanned star_url (@nil route) ++ [EvExec 1 star_url]))
                (returning "parent") (Returns (Val "parent")) []) as H.
  destruct H as (_ & H & _).
  - apply (arrives_through _ star_url Absent [] shell_route [] None shell_result []
             [keeper_route] keeper_route (Some 10%positive) shell_result).
    + split; [constructor | by_matching].
    + left. split; reflexivity.
    + reflexivity.
    + apply (arrives_here _ star_url Absent [] keeper_route [] (Some 10%positive)
               shell_result).
      split; [constructor | by_matching].
  - reflexivity.
  - reflexivity.
  - destruct H as [_ H].
    + intros v [= <-]. reflexivity.
    + exact (H (Val "parent") eq_refl).
Defined.

Lemma only_foo (r : route) : node_of [foo_route] r -> r = foo_route.
Proof.
  intros H. inversion H as [? ? Hin|? ? ? ? Hin Hcs]; subst.
  - now apply list_elem_of_singleton in Hin.
  - apply list_elem_of_singleton in Hin. subst. discriminate.
Qed.

(** C2, counterexample.  The path matches no node at any depth, an
    [errorHandler] is configured, and [resolve] does not fail: it is
    fulfilled with the handler's value. *)
Lemma unmatched_path_with_handler_resolves :
  let router := the_router (Many [foo_route]) with_fallback in
  (forall r, node_of (routes router) r -> unmatched (patterns router) bar_url r)
  /\ resolve router bar_url (Present "c") =
       (Fulfilled (Val "fallback"),
        [EvExec 1 bar_url;
         EvHandler bar_url 404 "Page https://example.com/bar is not found" (Present "c")]).
Proof.
  cbv zeta. split; [|compute_eq].
  intros r Hr. apply only_foo in Hr. subst r. by_matching.
Qed.

(** On [foo_route] alone, without handler: [bar_url] is not found.  On
    [section_route], which matches [foo_url] and has no action: its only
    child does not match and the 404 comes out. *)
Lemma unmatched_path_is_not_found_witness :
  resolve (the_router (Many [foo_route]) no_handler) bar_url Absent =
    (Rejected (RouterError 404 "Page https://example.com/bar is not found"),
     [EvExec 1 bar_url])
  /\ resolve (the_router (Many [section_route; page_route]) no_handler) foo_url Absent =
      (Rejected (RouterError 404 "Page https://example.com/foo is not found"),
       [EvExec 1 foo_url; EvExec 3 foo_url]).
Proof.
  split.
  - pose proof (unmatched_path_is_not_found origin (Many [foo_route]) no_handler
                  (the_router (Many [foo_route]) no_handler) bar_url Absent) as H.
    destruct H as ((_ & H & _) & _).
    + compute_eq.
    + intros r pattern Hr Hget. apply only_foo in Hr. subst r.
      vm_compute in Hget. injection Hget as <-. compute_eq.
    + exact (H eq_refl).
  - pose proof (unmatched_path_is_not_found origin (Many [section_route; page_route])
                  no_handler
                  (the_router (Many [section_route; page_route]) no_handler)
                  foo_url Absent) as H.
    destruct H as (_ & H); [compute_eq|].
    destruct (H section_route None section_result
                (scanned foo_url (@nil route) ++ [EvExec 1 foo_url]) []
                [inner_route]) as [_ H'].
    + apply (arrives_here _ foo_url Absent [] section_route [page_route] None
               section_result).
      split; [constructor | by_matching].
    + left. split; reflexivity.
    + reflexivity.
    + constructor; [by_matching | constructor].
    + exact (H' eq_refl).
Defined.

(** On [foo_route] alone, with the fallback handler: [bar_url] resolves
    to the fallback after one handler call. *)
Lemma handler_called_once_at_top_witness :
  resolve (the_router (Many [foo_route]) with_fallback) bar_url (Present "c") =
    (Fulfilled (Val "fallback"),
     [EvExec 1 bar_url] ++
     [EvHandler bar_url 404 "Page https://example.com/bar is not found" (Present "c")]).
Proof.
  pose proof (handler_called_once_at_top
                (the_router (Many [foo_route]) with_fallback) bar_url (Present "c")
                (fun _ _ _ _ => Returns (Val "fallback"))
                404 "Page https://example.com/bar is not found"
                [EvExec 1 bar_url]) as H.
  destruct H as (H & _).
  - reflexivity.
  - compute_eq.
  - exact H.
Defined.

(** C4, on the code.  The pattern ["/users/:id"] matches
    [https://example.com/users/42] and the platform reports
    [{ id: "42" }] under [pathname.groups]; the action receives
    [search.groups], which is [{ "0": "" }] and has no key [id].  The
    relative string ["/users/42"] matches nothing. *)
Theorem params_are_search_groups :
  let router := the_router (Single user_route) no_handler in
  (exists pattern,
     patterns router !! ident user_route = Some pattern /\
     URLPattern_exec pattern user_url = Some user_result)
  /\ groups (pathname user_result) = [("id", Some "42")]
  /\ resolve router user_url Absent =
       (Fulfilled (Val "user"),
        [EvExec 1 user_url;
         EvAction (mkRouteContext Absent 1 None user_url [("0", Some "")])])
  /\ resolve router (PathString "/users/42") Absent =
       (Rejected (RouterError 404 "Page /users/42 is not found"),
        [EvExec 1 (PathString "/users/42")]).
Proof.
  cbv zeta. split; [by_matching|]. split; [reflexivity|]. split; compute_eq.
Qed.

(** [foo_route] and [page_route] both match [foo_url]; the action of
    [foo_route] is called and its value is the result. *)
Lemma first_match_wins_witness :
  let table := patterns (the_router (Many [foo_route; page_route]) no_handler) in
  matched table foo_url page_route page_result
  /\ resolve_within table foo_url Absent ([] ++ foo_route :: [page_route]) None =
       (Fulfilled (Val "foo"),
        [EvExec 1 foo_url;
         EvAction (mkRouteContext Absent 1 None foo_url [("0", Some "")])]).
Proof.
  cbv zeta. split; [by_matching|].
  destruct (first_match_wins
              (patterns (the_router (Many [foo_route; page_route]) no_handler))
              foo_url Absent None [] foo_route [page_route] foo_result) as [H _].
  - split; [constructor | by_matching].
  - exact H.
Defined.

(** C6, on the code.  The child ["sub"] of ["/base"] is compiled as the
    claim describes, from its stripped segment and the joined
    ancestors; the platform resolves the relative pathname against the
    base URL cut after its last ["/"], so the compiled pathname is
    ["/sub"]: the child's matcher accepts the bare
    [https://example.com/sub] and rejects
    [https://example.com/base/sub], which resolves to 404. *)
Theorem child_pattern_loses_parent_segment :
  let router := the_router (Single base_route) no_handler in
  patterns router !! ident sub_route =
    URLPattern_new (stripJoiners "sub")
                   (join "/" [stripJoiners origin; stripJoiners "/base"])
  /\ (exists pattern,
        patterns router !! ident sub_route = Some pattern /\
        WHATWG.p_pathname pattern = WHATWG.literal "/sub" /\
        is_Some (WHATWG.exec pattern sub_url) /\
        WHATWG.exec pattern base_sub_url = None)
  /\ resolve router base_sub_url Absent =
       (Rejected (RouterError 404 "Page https://example.com/base/sub is not found"),
        [EvExec 1 base_sub_url])
  /\ resolve router sub_url Absent =
       (Rejected (RouterError 404 "Page https://example.com/sub is not found"),
        [EvExec 1 sub_url]).
Proof.
  cbv zeta. split; [compute_eq|]. split; [|split; compute_eq].
  eexists. split; [compute_eq|]. split; [reflexivity|].
  split; [vm_compute; eauto | compute_eq].
Qed.

(** C7, counterexample.  The action throws a [RouterError] of its own
    and an [errorHandler] is configured: the failure does not reach the
    caller, the handler is called with it and [resolve] is fulfilled
    with the handler's value. *)
Lemma handler_intercepts_action_error :
  let router := the_router (Single forbidden_route) with_fallback in
  let first := context_for (R:=Res) (E:=Exn) home (Present "c") forbidden_route None
                           home_result in
  (exists act, action forbidden_route = Some act /\
               act first = Finish (Throws (RouterError 403 "Forbidden")))
  /\ resolve router home (Present "c") =
       (Fulfilled (Val "fallback"),
        [EvExec 1 home; EvAction first;
         EvHandler home 403 "Forbidden" (Present "c")])
  /\ result_of (resolve router home (Present "c")) <> Rejected (RouterError 403 "Forbidden").
Proof.
  cbv zeta. split; [eexists; split; reflexivity|]. split; [compute_eq|].
  vm_compute. discriminate.
Qed.

(** The action of [quiet_parent] returns [undefined], the resolver calls
    [next()], and the child's action throws a foreign exception: it
    passes the configured handler. *)
Lemma action_failure_propagates_witness :
  resolve (the_router (Single quiet_parent) with_fallback) home (Present "c") =
    (Rejected (Foreign "boom"),
     [EvExec 1 home;
      EvAction (mkRouteContext (Present "c") 1 None home [("0", Some "")]);
      EvExec 2 home;
      EvAction (mkRouteContext (Present "c") 2 (Some 1%positive) home [("0", Some "")])]).
Proof.
  pose proof (action_failure_propagates
                (the_router (Single quiet_parent) with_fallback) home (Present "c")
                exploding_child (Some 1%positive) home_result
                (scanned home (@nil route) ++ [EvExec 1 home] ++
                 [EvAction (context_for (R:=Res) (E:=Exn) home (Present "c")
                                        quiet_parent None home_result)] ++
                 (scanned home (@nil route) ++ [EvExec 2 home]))
                (fun _ => Finish (Throws (Foreign "boom")))
                (Throws (Foreign "boom")) [] (Foreign "boom")) as H.
  destruct H as (_ & H & _).
  - apply (arrives_through _ home (Present "c") [] quiet_parent [] None home_result
             [EvAction (context_for (R:=Res) (E:=Exn) home (Present "c")
                                    quiet_parent None home_result)]
             [exploding_child] exploding_child (Some 1%positive) home_result).
    + split; [constructor | by_matching].
    + right. exists (fun _ => Finish (Returns Undefined)), Undefined, [].
      repeat split; reflexivity.
    + reflexivity.
    + apply (arrives_here _ home (Present "c") [] exploding_child []
               (Some 1%positive) home_result).
      split; [constructor | by_matching].
  - reflexivity.
  - reflexivity.
  - left. reflexivity.
  - destruct H as [H _]; [left; reflexivity | exact H].
Defined.

(** [bare_route] matches [home] and resolves to [undefined]. *)
Lemma leaf_without_action_is_undefined_witness :
  resolve (the_router (Single bare_route) with_fallback) home Absent =
    (Fulfilled Undefined, scanned home (@nil route) ++ [EvExec 1 home]).
Proof.
  apply (leaf_without_action_is_undefined
           (the_router (Single bare_route) with_fallback) home Absent
           bare_route None home_result).
  - apply (reaches_here _ home [] bare_route [] None home_result).
    split; [constructor | by_matching].
  - reflexivity.
  - left. reflexivity.
Defined.

(** [hollow_route] matches [home] and its empty [children] make the
    resolution fail. *)
Lemma empty_children_is_not_found_witness :
  resolve (the_router (Single hollow_route) no_handler) home Absent =
    (Rejected (RouterError 404 "Page https://example.com/ is not found"),
     scanned home (@nil route) ++ [EvExec 1 home]).
Proof.
  pose proof (empty_children_is_not_found
                (the_router (Single hollow_route) no_handler) home Absent
                hollow_route None home_result
                (scanned home (@nil route) ++ [EvExec 1 home])) as H.
  destruct H as (_ & _ & H & _).
  - apply (reaches_here _ home [] hollow_route [] None home_result).
    split; [constructor | by_matching].
  - reflexivity.
  - reflexivity.
  - exact (H eq_refl).
Defined.

(** The nested [sub_route] is in the table of its router. *)
Lemma every_node_has_a_pattern_witness :
  exists pattern,
    patterns (the_router (Single base_route) no_handler) !! ident sub_route
    = Some pattern.
Proof.
  apply (every_node_has_a_pattern origin (Single base_route) no_handler
           (the_router (Single base_route) no_handler)).
  - compute_eq.
  - apply (node_below [base_route] base_route [sub_route] sub_route).
    + apply list_elem_of_singleton. reflexivity.
    + reflexivity.
    + apply node_here, list_elem_of_singleton. reflexivity.
Defined.

End Instances.

(** ** Facts about [stripJoiners] and [join] *)

Lemma append_nil (b : string) : EmptyString +:+ b = b.
Proof. reflexivity. Qed.

Lemma append_cons (c : ascii) (a b : string) : String c a +:+ b = String c (a +:+ b).
Proof. reflexivity. Qed.

Lemma is_slash_true c : is_slash c = true -> c = slash.
Proof. unfold is_slash. intros H. now apply bool_decide_eq_true in H. Qed.

Lemma has_line_terminator_cons c r :
  has_line_terminator (String c r) =
    bool_decide (c = "010"%char) || bool_decide (c = "013"%char)
    || (bool_decide (c = "226"%char) && completes_separator r)
    || has_line_terminator r.
Proof.
  destruct (decide (c = "226"%char)) as [->|Hc].
  - cbn. destruct r as [|e r]; [reflexivity|].
    destruct (decide (e = "128"%char)) as [->|He].
    + destruct r as [|d r]; [reflexivity|]. cbn.
      destruct (bool_decide (d = "168"%char) || bool_decide (d = "169"%char));
        reflexivity.
    + destruct e as [[] [] [] [] [] [] [] []]; try reflexivity. now destruct He.
  - rewrite (bool_decide_eq_false_2 _ Hc). cbn [andb]. rewrite orb_false_r.
    destruct c as [[] [] [] [] [] [] [] []]; try reflexivity. now destruct Hc.
Qed.

Lemma has_line_terminator_slash r :
  has_line_terminator (String slash r) = has_line_terminator r.
Proof. now rewrite has_line_terminator_cons. Qed.

Lemma only_slashes_cons c r :
  only_slashes (String c r) = true -> c = slash /\ only_slashes r = true.
Proof.
  cbn. intros H. apply andb_prop in H as [Hc Hr]. split; [now apply is_slash_true | exact Hr].
Qed.

Lemma only_slashes_no_terminator b :
  only_slashes b = true -> has_line_terminator b = false.
Proof.
  induction b as [|c b IH]; [reflexivity|]. intros H.
  apply only_slashes_cons in H as [-> Hb]. rewrite has_line_terminator_slash. auto.
Qed.

Lemma only_slashes_app a b :
  only_slashes a = true -> only_slashes b = true -> only_slashes (a +:+ b) = true.
Proof.
  induction a as [|c a IH]; intros H Hb; [exact Hb|].
  apply only_slashes_cons in H as [-> Ha]. rewrite append_cons.
  cbn [only_slashes]. now rewrite (IH Ha Hb).
Qed.

Lemma completes_separator_app_slashes x b :
  only_slashes b = true -> completes_separator (x +:+ b) = completes_separator x.
Proof.
  intros Hb. destruct x as [|e [|d x]]; rewrite ?append_cons, ?append_nil;
    try reflexivity.
  - destruct b as [|c [|d b]]; try reflexivity.
    + apply only_slashes_cons in Hb as [-> _]. reflexivity.
    + apply only_slashes_cons in Hb as [-> _]. reflexivity.
  - destruct b as [|c b]; [reflexivity|].
    apply only_slashes_cons in Hb as [-> _].
    destruct (decide (e = "128"%char)) as [->|He]; [reflexivity|].
    destruct e as [[] [] [] [] [] [] [] []]; try reflexivity.
Qed.

(** Separators at the end do not add or hide a line terminator. *)
Lemma has_line_terminator_app_slashes x b :
  only_slashes b = true -> has_line_terminator (x +:+ b) = has_line_terminator x.
Proof.
  intros Hb. induction x as [|c x IH].
  - rewrite append_nil. now apply only_slashes_no_terminator.
  - rewrite append_cons, !has_line_terminator_cons, IH.
    now rewrite completes_separator_app_slashes.
Qed.

Lemma has_line_terminator_slashes_app a y :
  only_slashes a = true -> has_line_terminator (a +:+ y) = has_line_terminator y.
Proof.
  induction a as [|c a IH]; [reflexivity|]. intros H.
  apply only_slashes_cons in H as [-> Ha]. rewrite append_cons.
  rewrite has_line_terminator_slash. auto.
Qed.

Lemma strip_leading_slashes_app a y :
  only_slashes a = true -> strip_leading (a +:+ y) = strip_leading y.
Proof.
  induction a as [|c a IH]; [reflexivity|]. intros H.
  apply only_slashes_cons in H as [-> Ha]. rewrite append_cons. cbn. auto.
Qed.

Lemma strip_leading_split s :
  exists a, only_slashes a = true /\ s = a +:+ strip_leading s.
Proof.
  induction s as [|c s [a [Ha Hs]]].
  - exists EmptyString. split; reflexivity.
  - cbn [strip_leading]. destruct (is_slash c) eqn:Hc.
    + apply is_slash_true in Hc. subst c. exists (String slash a). split.
      * cbn. exact Ha.
      * rewrite append_cons. now rewrite <- Hs.
    + exists EmptyString. split; reflexivity.
Qed.

Lemma strip_leading_starts s : starts_with_slash (strip_leading s) = false.
Proof.
  induction s as [|c s IH]; [reflexivity|]. cbn [strip_leading].
  destruct (is_slash c) eqn:Hc; [exact IH | exact Hc].
Qed.

Lemma strip_leading_id s : starts_with_slash s = false -> strip_leading s = s.
Proof. destruct s as [|c s]; [reflexivity|]. cbn. now intros ->. Qed.

Lemma strip_trailing_empty r :
  strip_trailing r = EmptyString -> only_slashes r = true.
Proof.
  induction r as [|c r IH]; [reflexivity|]. cbn [strip_trailing].
  destruct (strip_trailing r) as [|d r'] eqn:Hr; [|discriminate].
  destruct (is_slash c) eqn:Hc; [|discriminate]. intros _. cbn. rewrite Hc. auto.
Qed.

Lemma strip_trailing_slashes b : only_slashes b = true -> strip_trailing b = EmptyString.
Proof.
  induction b as [|c b IH]; [reflexivity|]. intros H.
  apply only_slashes_cons in H as [-> Hb]. cbn [strip_trailing]. now rewrite (IH Hb).
Qed.

Lemma strip_trailing_app_slashes x b :
  only_slashes b = true -> strip_trailing (x +:+ b) = strip_trailing x.
Proof.
  intros Hb. induction x as [|c x IH].
  - rewrite append_nil. now apply strip_trailing_slashes.
  - rewrite append_cons. cbn [strip_trailing]. now rewrite IH.
Qed.

Lemma strip_trailing_split s :
  exists b, only_slashes b = true /\ s = strip_trailing s +:+ b.
Proof.
  induction s as [|c s [b [Hb Hs]]].
  - exists EmptyString. split; reflexivity.
  - cbn [strip_trailing]. destruct (strip_trailing s) as [|d r'] eqn:Hr.
    + destruct (is_slash c) eqn:Hc.
      * exists (String c s). split; [|reflexivity]. cbn. rewrite Hc.
        now apply strip_trailing_empty.
      * exists b. split; [exact Hb|]. rewrite append_nil in Hs.
        rewrite append_cons, append_nil. now rewrite <- Hs.
    + exists b. split; [exact Hb|]. rewrite append_cons. now rewrite <- Hs.
Qed.

Lemma strip_trailing_ends s : ends_with_slash (strip_trailing s) = false.
Proof.
  induction s as [|c s IH]; [reflexivity|]. cbn [strip_trailing].
  destruct (strip_trailing s) as [|d r'] eqn:Hr.
  - destruct (is_slash c) eqn:Hc; [reflexivity | exact Hc].
  - exact IH.
Qed.

Lemma strip_trailing_id s : ends_with_slash s = false -> strip_trailing s = s.
Proof.
  induction s as [|c s IH]; [reflexivity|]. intros H. cbn [strip_trailing].
  destruct s as [|d s].
  - cbn in *. now rewrite H.
  - rewrite (IH H). reflexivity.
Qed.

Lemma strip_trailing_starts s :
  starts_with_slash s = false -> starts_with_slash (strip_trailing s) = false.
Proof.
  destruct s as [|c s]; [reflexivity|]. cbn [starts_with_slash strip_trailing].
  intros Hc. destruct (strip_trailing s); rewrite ?Hc; cbn; try rewrite Hc; reflexivity.
Qed.

Lemma stripJoiners_Some s x :
  stripJoiners s = Some x <->
  has_line_terminator s = false /\ x = strip_trailing (strip_leading s).
Proof.
  unfold stripJoiners. destruct (has_line_terminator s); split.
  - discriminate.
  - now intros [? _].
  - intros [= <-]. auto.
  - now intros [_ ->].
Qed.

Lemma stripJoiners_clean x :
  has_line_terminator x = false -> starts_with_slash x = false ->
  ends_with_slash x = false -> stripJoiners x = Some x.
Proof.
  intros Hlt Hs He. apply stripJoiners_Some. split; [exact Hlt|].
  now rewrite (strip_leading_id _ Hs), (strip_trailing_id _ He).
Qed.

Lemma append_assoc (a b c : string) : (a +:+ b) +:+ c = a +:+ (b +:+ c).
Proof.
  induction a as [|x a IH]; [reflexivity|]. now rewrite !append_cons, IH.
Qed.

Lemma strip_both_app_slashes s b :
  only_slashes b = true ->
  strip_trailing (strip_leading (s +:+ b)) = strip_trailing (strip_leading s).
Proof.
  intros Hb. induction s as [|c s IH].
  - rewrite append_nil. cbn [strip_leading strip_trailing].
    assert (only_slashes (strip_leading b) = true) as Hsl.
    { clear -Hb. induction b as [|c b IH]; [reflexivity|].
      apply only_slashes_cons in Hb as [-> Hb]. cbn. auto. }
    now apply strip_trailing_slashes.
  - rewrite append_cons. cbn [strip_leading]. destruct (is_slash c); [exact IH|].
    rewrite <- append_cons. now apply strip_trailing_app_slashes.
Qed.

Lemma stripJoiners_outer (a s b : string) :
  only_slashes a = true -> only_slashes b = true ->
  stripJoiners (a +:+ s +:+ b) = stripJoiners s.
Proof.
  intros Ha Hb. unfold stripJoiners.
  rewrite (has_line_terminator_slashes_app _ _ Ha), (has_line_terminator_app_slashes _ _ Hb).
  rewrite (strip_leading_slashes_app _ _ Ha), (strip_both_app_slashes _ _ Hb).
  reflexivity.
Qed.

Lemma stripJoiners_spec (s part : string) :
  stripJoiners s = Some part <->
  has_line_terminator s = false /\
  starts_with_slash part = false /\ ends_with_slash part = false /\
  exists a b, only_slashes a = true /\ only_slashes b = true /\ s = a +:+ part +:+ b.
Proof.
  split.
  - intros H. apply stripJoiners_Some in H as [Hlt ->]. split; [exact Hlt|].
    split; [apply strip_trailing_starts, strip_leading_starts|].
    split; [apply strip_trailing_ends|].
    destruct (strip_leading_split s) as [a [Ha Hs]].
    destruct (strip_trailing_split (strip_leading s)) as [b [Hb Hs']].
    exists a, b. split; [exact Ha|]. split; [exact Hb|].
    now rewrite <- Hs', <- Hs.
  - intros (Hlt & Hstart & Hend & a & b & Ha & Hb & ->).
    rewrite (stripJoiners_outer _ _ _ Ha Hb).
    apply stripJoiners_clean; auto.
    now rewrite (has_line_terminator_slashes_app _ _ Ha),
                (has_line_terminator_app_slashes _ _ Hb) in Hlt.
Qed.

(** X2.  Separators around a segment do not change what [stripJoiners]
    returns: ["/foo/"], ["foo"] and ["/foo"] are one segment. *)
Theorem stripJoiners_ignores_outer_slashes (a s b : string) :
  only_slashes a = true -> only_slashes b = true ->
  stripJoiners (a +:+ s +:+ b) = stripJoiners s.
Proof. exact (stripJoiners_outer a s b). Qed.

(** X1.  [stripJoiners] returns [part] exactly when the string has no line
    terminator and is [part] between two runs of separators, [part]
    itself neither starting nor ending with a separator. *)
Theorem stripJoiners_characterised (s part : string) :
  stripJoiners s = Some part <->
  has_line_terminator s = false /\
  starts_with_slash part = false /\ ends_with_slash part = false /\
  exists a b, only_slashes a = true /\ only_slashes b = true /\ s = a +:+ part +:+ b.
Proof. exact (stripJoiners_spec s part). Qed.

(** X3.  Stripping a stripped segment changes nothing. *)
Theorem stripJoiners_idempotent (s part : string) :
  stripJoiners s = Some part -> stripJoiners part = Some part.
Proof.
  intros H. apply stripJoiners_spec in H
    as (Hlt & Hstart & Hend & a & b & Ha & Hb & ->).
  apply stripJoiners_clean; auto.
  now rewrite (has_line_terminator_slashes_app _ _ Ha),
              (has_line_terminator_app_slashes _ _ Hb) in Hlt.
Qed.

(** X4.  The result is the empty string exactly for the strings made of
    separators only, the empty string included. *)
Theorem stripJoiners_empty_iff (s : string) :
  stripJoiners s = Some EmptyString <-> only_slashes s = true.
Proof.
  split.
  - intros H. apply stripJoiners_spec in H
      as (_ & _ & _ & a & b & Ha & Hb & ->).
    rewrite append_nil. now apply only_slashes_app.
  - intros H. apply stripJoiners_Some. split.
    + now apply only_slashes_no_terminator.
    + symmetry. apply strip_trailing_slashes.
      destruct (strip_leading_split s) as [a [Ha Hs]].
      clear -H. induction s as [|c s IH]; [reflexivity|].
      apply only_slashes_cons in H as [-> Hs]. cbn. auto.
Qed.

Lemma ends_with_slash_cons c r :
  r <> EmptyString -> ends_with_slash (String c r) = ends_with_slash r.
Proof. destruct r; [congruence | reflexivity]. Qed.

Lemma ends_with_slash_app a b :
  b <> EmptyString -> ends_with_slash (a +:+ b) = ends_with_slash b.
Proof.
  intros Hb. induction a as [|c a IH]; [reflexivity|].
  rewrite append_cons, ends_with_slash_cons; [exact IH|].
  destruct a; [exact Hb | discriminate].
Qed.

Lemma join_snoc (ps : list (option string)) (o : option string) :
  ps <> [] -> join "/" (ps ++ [o]) = join "/" ps +:+ "/" +:+ default EmptyString o.
Proof.
  unfold join. induction ps as [|p ps IH]; [intros H; now destruct H|]. intros _.
  destruct ps as [|q ps]; [reflexivity|].
  assert (q :: ps <> []) as Hne by discriminate. specialize (IH Hne).
  cbn [app map] in *. cbn [String.concat] in *.
  destruct (map (default EmptyString) ps ++ [default EmptyString o]) eqn:Hl.
  - destruct (map (default EmptyString) ps); discriminate.
  - rewrite IH. destruct (map (default EmptyString) ps);
      now rewrite !append_assoc.
Qed.

(** X5.  The base that a node hands down to its children ends with a
    separator exactly when the node's own stripped segment is empty. *)
Theorem child_base_ends_with_slash_iff (ps : list (option string)) (s part : string) :
  ps <> [] -> stripJoiners s = Some part ->
  (ends_with_slash (join "/" (ps ++ [stripJoiners s])) = true <-> part = EmptyString).
Proof.
  intros Hps Hs. rewrite Hs, (join_snoc _ _ Hps). cbn [default].
  apply stripJoiners_spec in Hs as (_ & _ & Hend & _).
  destruct part as [|c part].
  - split; [reflexivity|]. intros _. unfold id.
    rewrite ends_with_slash_app; [reflexivity|discriminate].
  - split; [|discriminate]. rewrite <- append_assoc.
    rewrite ends_with_slash_app by discriminate. unfold id. congruence.
Qed.

(** ** Further facts about the constructor *)

Section ConstructorFacts.

Context {R E C : Type} `{api : URLPatternAPI}.

Implicit Types (table tbl : gmap positive URLPattern)
  (r route via : Route (R:=R) (E:=E) (C:=C))
  (rs cs : list (Route (R:=R) (E:=E) (C:=C)))
  (parents ps : list (option string))
  (router : Router (R:=R) (E:=E) (C:=C))
  (arg : RoutesArg (R:=R) (E:=E) (C:=C))
  (opts : option (RouterOptions (R:=R) (E:=E) (C:=C))).

Lemma occurs_node_of rs parents r ps : occurs rs parents r ps -> node_of rs r.
Proof.
  induction 1 as [rs parents r Hin|rs parents via cs r ps Hin Hcs _ IH].
  - now constructor.
  - eapply node_below; eauto.
Qed.

(** Where the entries of the table come from. *)
Lemma patternize_loop_origin body rs (Q : Route (R:=R) (E:=E) (C:=C) -> positive -> URLPattern -> Prop) :
  Forall (fun r => forall tbl1 tbl2, body r tbl1 = Some tbl2 ->
            forall i pattern, tbl2 !! i = Some pattern ->
              tbl1 !! i = Some pattern \/ Q r i pattern) rs ->
  forall tbl tbl', patternize_loop body rs tbl = Some tbl' ->
    forall i pattern, tbl' !! i = Some pattern ->
      tbl !! i = Some pattern \/ exists r, r ∈ rs /\ Q r i pattern.
Proof.
  induction 1 as [|r rs Hr _ IH]; intros tbl tbl' Hloop i pattern Hget;
    cbn [patternize_loop] in Hloop.
  - injection Hloop as <-. now left.
  - destruct (body r tbl) as [tbl1|] eqn:Hbody; [|discriminate].
    destruct (IH _ _ Hloop _ _ Hget) as [Hold|(r' & Hin & HQ)].
    + destruct (Hr _ _ Hbody _ _ Hold) as [Holder|HQ]; [now left|].
      right. exists r. split; [apply list_elem_of_here | exact HQ].
    + right. exists r'. split; [now apply list_elem_of_further | exact HQ].
Qed.


Lemma compiled_at_occurs rs parents r i pattern :
  r ∈ rs -> compiled_at parents r i pattern ->
  exists r' ps, occurs rs parents r' ps /\ ident r' = i /\ compiled r' ps = Some pattern.
Proof.
  intros Hin [[-> Hc]|(cs & r' & ps & Hcs & Hocc & Hid & Hc)].
  - exists r, parents. split; [now constructor | auto].
  - exists r', ps. split; [eapply occurs_below; eauto | auto].
Qed.

Lemma patternize_route_origin r :
  forall parents tbl tbl', patternize_route parents r tbl = Some tbl' ->
    forall i pattern, tbl' !! i = Some pattern ->
      tbl !! i = Some pattern \/ compiled_at parents r i pattern.
Proof.
  induction r as [r IH] using Route_nested_ind.
  intros parents tbl tbl' Hroute i pattern Hget.
  assert (forall pat0, compiled r parents = Some pat0 ->
            <[ident r := pat0]> tbl !! i = Some pattern ->
            tbl !! i = Some pattern \/ compiled_at parents r i pattern) as Hins.
  { intros pat0 Hc Hi. destruct (decide (ident r = i)) as [<-|Hne].
    - rewrite lookup_insert_eq in Hi. injection Hi as ->. right. left. auto.
    - rewrite lookup_insert_ne in Hi by exact Hne. now left. }
  destruct r as [i0 s ch a]. unfold compiled in Hins.
  cbn [patternize_route path ident children] in *.
  destruct (URLPattern_new _ _) as [pat0|] eqn:Hnew; [|discriminate].
  destruct ch as [| |cs]; try (injection Hroute as <-; now apply (Hins pat0)).
  destruct (0 <? length cs)%nat; [|injection Hroute as <-; now apply (Hins pat0)].
  assert (Forall (fun r' => forall tbl1 tbl2,
            patternize_route (parents ++ [stripJoiners s]) r' tbl1 = Some tbl2 ->
            forall i pattern, tbl2 !! i = Some pattern ->
              tbl1 !! i = Some pattern \/
              compiled_at (parents ++ [stripJoiners s]) r' i pattern) cs) as HF.
  { specialize (IH cs eq_refl). eapply Forall_impl; [exact IH|].
    intros r' Hr' tbl1 tbl2. apply Hr'. }
  destruct (patternize_loop_origin _ _ _ HF _ _ Hroute _ _ Hget)
    as [Hold|(r' & Hin & Hat)]; [now apply (Hins pat0)|].
  right. right.
  destruct (compiled_at_occurs _ _ _ _ _ Hin Hat) as (r'' & ps & Hocc & Hid & Hc).
  exists cs, r'', ps. auto.
Qed.

Lemma patternize_origin rs parents tbl tbl' :
  patternize rs parents tbl = Some tbl' ->
  forall i pattern, tbl' !! i = Some pattern ->
    tbl !! i = Some pattern \/
    exists r ps, occurs rs parents r ps /\ ident r = i /\ compiled r ps = Some pattern.
Proof.
  unfold patternize. intros Hloop i pattern Hget.
  assert (Forall (fun r => forall tbl1 tbl2,
            patternize_route parents r tbl1 = Some tbl2 ->
            forall i pattern, tbl2 !! i = Some pattern ->
              tbl1 !! i = Some pattern \/ compiled_at parents r i pattern) rs) as HF.
  { apply Forall_forall. intros r _ tbl1 tbl2. apply patternize_route_origin. }
  destruct (patternize_loop_origin _ _ _ HF _ _ Hloop _ _ Hget)
    as [Hold|(r & Hin & Hat)]; [now left|]. right.
  eapply compiled_at_occurs; eauto.
Qed.

Lemma Router_new_unfold location_origin arg opts router :
  Router_new location_origin arg opts = Some router ->
  routes router = routes_of arg /\ options router = opts /\
  patternize (routes_of arg) (root_parents location_origin opts) ∅
    = Some (patterns router).
Proof.
  unfold Router_new, routes_of, root_parents. intros H.
  destruct arg as [l|r0];
    (destruct (patternize _ _ _) as [tbl|] eqn:Hp; [|discriminate]);
    injection H as <-; auto.
Qed.

Lemma Router_new_entry_origin location_origin arg opts router i pattern :
  Router_new location_origin arg opts = Some router ->
  patterns router !! i = Some pattern ->
  exists r ps,
    occurs (routes router) (root_parents location_origin opts) r ps /\
    ident r = i /\
    URLPattern_new (stripJoiners (path r)) (join "/" ps) = Some pattern.
Proof.
  intros Hnew Hget. apply Router_new_unfold in Hnew as (Hroutes & _ & Hp).
  rewrite Hroutes.
  destruct (patternize_origin _ _ _ _ Hp _ _ Hget) as [Hempty|Hocc]; [|exact Hocc].
  now rewrite lookup_empty in Hempty.
Qed.

(** X6.  Every entry of the pattern table was compiled for a node of the
    tree, from the node's stripped segment, against the stripped base URL
    and the stripped segments of the node's ancestors joined with ["/"];
    the table holds no other key. *)
Theorem table_entries_are_compiled_nodes location_origin arg opts router i pattern :
  Router_new location_origin arg opts = Some router ->
  patterns router !! i = Some pattern ->
  exists r ps,
    occurs (routes router) (root_parents location_origin opts) r ps /\
    ident r = i /\
    URLPattern_new (stripJoiners (path r)) (join "/" ps) = Some pattern.
Proof. exact (Router_new_entry_origin location_origin arg opts router i pattern). Qed.

(** X7.  A node whose identity is not shared with a node compiled differently
    is stored with exactly its own compiled pattern. *)
Theorem unshared_node_has_its_pattern location_origin arg opts router r ps :
  Router_new location_origin arg opts = Some router ->
  occurs (routes router) (root_parents location_origin opts) r ps ->
  (forall r' ps', occurs (routes router) (root_parents location_origin opts) r' ps' ->
     ident r' = ident r ->
     stripJoiners (path r') = stripJoiners (path r) /\ join "/" ps' = join "/" ps) ->
  patterns router !! ident r =
    URLPattern_new (stripJoiners (path r)) (join "/" ps)
  /\ is_Some (patterns router !! ident r).
Proof.
  intros Hnew Hocc Hunique.
  destruct (Router_new_covers _ _ _ _ Hnew r (occurs_node_of _ _ _ _ Hocc))
    as [pattern Hget].
  destruct (Router_new_entry_origin _ _ _ _ _ _ Hnew Hget)
    as (r' & ps' & Hocc' & Hid & Hc).
  destruct (Hunique _ _ Hocc' Hid) as [Hpath Hjoin].
  rewrite Hget. split; [|eauto]. now rewrite <- Hpath, <- Hjoin.
Qed.

(** *** When the constructor throws *)

Lemma patternize_loop_success body rs :
  (forall r, r ∈ rs -> forall tbl, is_Some (body r tbl)) ->
  forall tbl, is_Some (patternize_loop body rs tbl).
Proof.
  induction rs as [|r rs IH]; intros Hbody tbl; cbn [patternize_loop]; [eauto|].
  destruct (Hbody r (list_elem_of_here _ _) tbl) as [tbl1 ->].
  apply IH. intros r' Hin. apply Hbody. now apply list_elem_of_further.
Qed.

Lemma patternize_loop_ran body rs :
  forall tbl tbl', patternize_loop body rs tbl = Some tbl' ->
    forall r, r ∈ rs -> exists tbl1 tbl2, body r tbl1 = Some tbl2.
Proof.
  induction rs as [|r0 rs IH]; intros tbl tbl' Hloop r Hin;
    [now apply elem_of_nil in Hin|].
  cbn [patternize_loop] in Hloop.
  destruct (body r0 tbl) as [tbl1|] eqn:Hbody; [|discriminate].
  apply elem_of_cons in Hin as [->|Hin]; [eauto|]. eapply IH; eauto.
Qed.

Lemma patternize_route_success r :
  forall parents,
    is_Some (compiled r parents) ->
    (forall cs r' ps, children r = Present cs ->
       occurs cs (parents ++ [stripJoiners (path r)]) r' ps -> is_Some (compiled r' ps)) ->
    forall tbl, is_Some (patternize_route parents r tbl).
Proof.
  induction r as [r IH] using Route_nested_ind. intros parents [pat0 Hc] Hbelow tbl.
  destruct r as [i0 s ch a]. unfold compiled in Hc.
  cbn [patternize_route path ident children] in *. rewrite Hc.
  destruct ch as [| |cs]; eauto.
  destruct (0 <? length cs)%nat; [|eauto].
  apply patternize_loop_success. intros r' Hin.
  specialize (IH cs eq_refl). rewrite Forall_forall in IH.
  apply (IH r' Hin).
  - apply (Hbelow cs r' _ eq_refl). now constructor.
  - intros cs' r'' ps Hcs' Hocc. apply (Hbelow cs r'' ps eq_refl).
    eapply occurs_below; eauto.
Qed.

Lemma patternize_route_compiled r :
  forall parents tbl tbl', patternize_route parents r tbl = Some tbl' ->
    is_Some (compiled r parents) /\
    forall cs r' ps, children r = Present cs ->
      occurs cs (parents ++ [stripJoiners (path r)]) r' ps -> is_Some (compiled r' ps).
Proof.
  induction r as [r IH] using Route_nested_ind. intros parents tbl tbl' Hroute.
  destruct r as [i0 s ch a]. unfold compiled.
  cbn [patternize_route path ident children] in *.
  destruct (URLPattern_new _ _) as [pat0|] eqn:Hnew; [|discriminate].
  split; [eauto|]. intros cs r' ps Hcs Hocc. subst ch.
  destruct (0 <? length cs)%nat eqn:Hlen.
  - specialize (IH cs eq_refl). rewrite Forall_forall in IH.
    inversion Hocc as [? ? ? Hin|? ? via cs' ? ? Hin Hcs' Hocc']; subst.
    + destruct (patternize_loop_ran _ _ _ _ Hroute _ Hin) as (tbl1 & tbl2 & Hrun).
      apply (IH _ Hin _ _ _ Hrun).
    + destruct (patternize_loop_ran _ _ _ _ Hroute _ Hin) as (tbl1 & tbl2 & Hrun).
      apply (IH _ Hin _ _ _ Hrun) in Hocc'; [exact Hocc' | exact Hcs'].
  - destruct cs; [|discriminate].
    apply occurs_node_of, node_of_nil in Hocc. contradiction.
Qed.

(** X8.  The constructor succeeds exactly when the [URLPattern] constructor
    accepts the stripped segment and the joined base of every node of the
    tree: a malformed pattern anywhere makes the construction throw, and
    nothing else does. *)
Theorem construction_succeeds_iff location_origin arg opts :
  is_Some (Router_new location_origin arg opts) <->
  forall r ps, occurs (routes_of arg) (root_parents location_origin opts) r ps ->
    is_Some (URLPattern_new (stripJoiners (path r)) (join "/" ps)).
Proof.
  split.
  - intros [router Hnew] r ps Hocc.
    apply Router_new_unfold in Hnew as (_ & _ & Hp). unfold patternize in Hp.
    inversion Hocc as [? ? ? Hin|? ? via cs ? ? Hin Hcs Hocc']; subst.
    + destruct (patternize_loop_ran _ _ _ _ Hp _ Hin) as (tbl1 & tbl2 & Hrun).
      now apply patternize_route_compiled in Hrun as [Hc _].
    + destruct (patternize_loop_ran _ _ _ _ Hp _ Hin) as (tbl1 & tbl2 & Hrun).
      apply patternize_route_compiled in Hrun as [_ Hbelow]. eapply Hbelow; eauto.
  - intros Hall.
    assert (is_Some (patternize (routes_of arg) (root_parents location_origin opts) ∅))
      as [tbl Hp].
    { apply patternize_loop_success. intros r Hin tbl. apply patternize_route_success.
      - apply Hall. now constructor.
      - intros cs r' ps Hcs Hocc. apply Hall. eapply occurs_below; eauto. }
    unfold Router_new. unfold routes_of, root_parents in Hp.
    destruct arg; cbn in *; rewrite Hp; eauto.
Qed.

End ConstructorFacts.

(** ** Further facts about the resolver *)

Section FurtherResolverFacts.

Context {R E C : Type} `{api : URLPatternAPI}.

Implicit Types (table : gmap positive URLPattern) (p : PathInput)
  (ctx : optional C) (r route via : Route (R:=R) (E:=E) (C:=C))
  (rs pre post cs : list (Route (R:=R) (E:=E) (C:=C)))
  (parent par : option positive) (result : URLPatternResult)
  (router : Router (R:=R) (E:=E) (C:=C))
  (o : outcome (R:=R) (E:=E)) (c : completion (R:=R) (E:=E))
  (s : script (R:=R) (E:=E))
  (t scan : list (event (C:=C))).

(** X9.  A 404 raised below nodes without action is final: it comes out of
    the traversal unchanged, and no sibling declared after the matched
    nodes is tested at any level (no backtracking); without handler
    [resolve] fails with it. *)
Theorem nested_not_found_is_final router p ctx via parent' result scan cs :
  reaches (patterns router) p (routes router) None via parent' result scan ->
  action via = None ->
  children via = Present cs ->
  Forall (unmatched (patterns router) p) cs ->
  resolve_within (patterns router) p ctx (routes router) None
    = (Rejected (not_found p), scan ++ scanned p cs)
  /\ (configured_handler router = None ->
      resolve router p ctx = (Rejected (not_found p), scan ++ scanned p cs)).
Proof.
  intros Hreach Hact Hcs Hall.
  assert (resolve_within (patterns router) p ctx (routes router) None
          = (Rejected (not_found p), scan ++ scanned p cs)) as Hin.
  { rewrite (resolve_within_reaches _ _ _ _ _ _ _ _ _ Hreach).
    rewrite (on_match_no_action _ _ _ _ _ _ Hact). unfold next_of. rewrite Hcs.
    now rewrite (resolve_within_all_unmatched _ _ _ _ _ Hall). }
  split; [exact Hin|]. intros Hno. apply resolve_passes; auto.
Qed.

(** *** What a traversal does *)

Lemma placed_trans rs parent r par cs r' par' :
  placed rs parent r par -> children r = Present cs ->
  placed cs (Some (ident r)) r' par' -> placed rs parent r' par'.
Proof.
  induction 1 as [rs parent r Hin|rs parent via cs0 r par Hin Hcs0 _ IH];
    intros Hcs Hbelow.
  - eapply placed_below; eauto.
  - eapply placed_below; eauto.
Qed.

Lemma run_script_Forall (P : event (C:=C) -> Prop) (next : Eff (C:=C) (outcome (R:=R) (E:=E))) s :
  Forall P (trace_of next) -> Forall P (trace_of (run_script next s)).
Proof.
  intros Hnext. induction s as [c|k IH]; cbn [run_script].
  - constructor.
  - destruct next as [o t]. rewrite bind_pair. cbn [trace_of snd] in *.
    apply Forall_app. split; [exact Hnext | apply IH].
Qed.

Lemma resolve_loop_events table p ctx rs parent par0
    (K : Route (R:=R) (E:=E) (C:=C) -> URLPatternResult -> Eff (C:=C) (outcome (R:=R) (E:=E)))
    (l : list (Route (R:=R) (E:=E) (C:=C))) :
  (forall r, r ∈ l -> placed rs parent r par0) ->
  (forall r result, r ∈ l -> matched table p r result ->
     Forall (traversal_event table p ctx rs parent) (trace_of (K r result))) ->
  Forall (traversal_event table p ctx rs parent) (trace_of (resolve_loop table p K l)).
Proof.
  induction l as [|r l IH]; intros Hplaced HK; cbn [resolve_loop]; [constructor|].
  destruct (table !! ident r) as [pattern|] eqn:Hget; [|constructor].
  unfold emit. rewrite bind_pair. cbn [trace_of snd app].
  constructor.
  - cbn. split; [reflexivity|]. exists r, par0.
    split; [apply Hplaced, list_elem_of_here|]. split; [reflexivity|]. rewrite Hget. eauto.
  - destruct (URLPattern_exec pattern p) as [result|] eqn:Hexec.
    + apply HK; [apply list_elem_of_here|]. exists pattern. auto.
    + apply IH.
      * intros r' Hin. apply Hplaced. now apply list_elem_of_further.
      * intros r' result Hin. apply HK. now apply list_elem_of_further.
Qed.

Lemma on_match_events table p ctx r :
  forall rs parent par result,
    placed rs parent r par -> matched table p r result ->
    Forall (traversal_event table p ctx rs parent)
           (trace_of (on_match table p ctx r par result)).
Proof.
  induction r as [r IH] using Route_nested_ind.
  intros rs parent par result Hplaced Hmatched.
  assert (Forall (traversal_event table p ctx rs parent)
                 (trace_of (next_of table p ctx r))) as Hnext.
  { unfold next_of. destruct (children r) as [| |cs] eqn:Hcs; try constructor.
    specialize (IH cs eq_refl). rewrite Forall_forall in IH.
    apply (resolve_loop_events _ _ _ _ _ (Some (ident r))).
    - intros r' Hin. eapply placed_trans; eauto. now constructor.
    - intros r' result' Hin Hm. apply IH; [exact Hin| |exact Hm].
      eapply placed_trans; eauto. now constructor. }
  destruct (action r) as [act|] eqn:Hact.
  - rewrite (on_match_action _ _ _ _ _ _ _ Hact). cbn zeta.
    pose proof (run_script_Forall _ (next_of table p ctx r)
                  (act (context_for p ctx r par result)) Hnext) as Hrun.
    assert (traversal_event table p ctx rs parent
              (EvAction (context_for p ctx r par result))) as Hev.
    { cbn. split; [reflexivity|]. split; [reflexivity|].
      exists r, par, result. rewrite Hact. repeat split; eauto. }
    destruct (result_of _) as [v|o|e]; cbn [trace_of snd].
    + destruct (nullish v); cbn [snd].
      * constructor; [exact Hev|]. apply Forall_app. now split.
      * constructor; [exact Hev | exact Hrun].
    + constructor; [exact Hev | exact Hrun].
    + constructor; [exact Hev | exact Hrun].
  - now rewrite (on_match_no_action _ _ _ _ _ _ Hact).
Qed.

(** X10.  Every matcher evaluation of a traversal is that of a node of the
    tree against the original path, and every action call is that of a
    node whose own matcher accepted that path; the action receives the
    caller's context unchanged, the original path, the identity of its
    parent, and the groups of the search component of its match. *)
Theorem traversal_events_are_sound table p ctx rs parent :
  Forall (traversal_event table p ctx rs parent)
         (trace_of (resolve_within table p ctx rs parent)).
Proof.
  unfold resolve_within. apply (resolve_loop_events _ _ _ _ _ parent).
  - intros r Hin. now constructor.
  - intros r result Hin Hm. apply on_match_events; [now constructor | exact Hm].
Qed.

(** *** Failures that are not the router's *)

(** X12.  A sibling without entry in the pattern table (a route that was not
    in the tree when the router was constructed) stops the scan with a
    [TypeError]; it is not a [RouterError], so [resolve] fails with it
    even when a handler is configured, and the handler is not called. *)
Theorem missing_pattern_is_type_error router p ctx pre r post :
  routes router = pre ++ r :: post ->
  Forall (unmatched (patterns router) p) pre ->
  patterns router !! ident r = None ->
  resolve router p ctx = (Rejected TypeError, scanned p pre).
Proof.
  intros Hroutes Hpre Hnone. apply resolve_passes; [|discriminate].
  rewrite Hroutes. clear Hroutes. unfold resolve_within.
  induction Hpre as [|x pre Hx _ IH]; cbn [app scanned map].
  - cbn [resolve_loop]. now rewrite Hnone.
  - rewrite (resolve_loop_unmatched _ _ _ _ _ Hx), IH. reflexivity.
Qed.

(** X13.  The handler is called in a resolution exactly when one is configured
    and the traversal is rejected with a [RouterError]. *)
Theorem handler_called_iff router p ctx :
  (exists e, e ∈ trace_of (resolve router p ctx) /\ is_handler_event e = true) <->
  (exists handler status message,
     configured_handler router = Some handler /\
     result_of (resolve_within (patterns router) p ctx (routes router) None)
       = Rejected (RouterError status message)).
Proof.
  destruct (resolve_within (patterns router) p ctx (routes router) None)
    as [o t] eqn:Hin.
  assert (quiet t) as Hquiet.
  { pose proof (resolve_within_quiet (patterns router) p ctx (routes router) None) as Hq.
    now rewrite Hin in Hq. }
  assert (forall e, e ∈ t -> is_handler_event e = true -> False) as Hnone.
  { intros e He Hh. unfold quiet in Hquiet. rewrite Forall_forall in Hquiet.
    specialize (Hquiet e He). congruence. }
  cbn [result_of fst]. split.
  - intros (e & He & Hh).
    destruct (configured_handler router) as [handler|] eqn:Hcfg.
    + destruct o as [v|[status message| |x]|];
        try (rewrite (resolve_passes _ _ _ _ _ Hin) in He by discriminate;
             exfalso; eauto).
      eauto.
    + rewrite (resolve_passes _ _ _ _ _ Hin) in He by (intros; exact Hcfg).
      exfalso. eauto.
  - intros (handler & status & message & Hcfg & ->).
    rewrite (resolve_handles _ _ _ _ _ _ _ Hcfg Hin). cbn [trace_of snd].
    exists (EvHandler p status message ctx). split; [|reflexivity].
    apply elem_of_app. right. apply list_elem_of_here.
Qed.

(** X14.  A failure of the handler itself (thrown, or a rejected promise) is
    what [resolve] fails with; the handler is not called a second time,
    not even when it throws a [RouterError]. *)
Theorem handler_failure_surfaces router p ctx handler status message t e :
  configured_handler router = Some handler ->
  resolve_within (patterns router) p ctx (routes router) None =
    (Rejected (RouterError status message), t) ->
  handler p status message ctx = Throws e \/
  handler p status message ctx = ReturnsPromise (Rejected e) ->
  resolve router p ctx = (Rejected e, t ++ [EvHandler p status message ctx])
  /\ quiet t.
Proof.
  intros Hcfg Hin Hfail. rewrite (resolve_handles _ _ _ _ _ _ _ Hcfg Hin).
  split.
  - destruct Hfail as [-> | ->]; reflexivity.
  - pose proof (resolve_within_quiet (patterns router) p ctx (routes router) None) as Hq.
    now rewrite Hin in Hq.
Qed.

Lemma run_script_silent (x : outcome (R:=R) (E:=E)) s :
  trace_of (run_script (C:=C) (ret x) s) = [].
Proof.
  induction s as [c|k IH]; [reflexivity|].
  cbn [run_script]. unfold ret. rewrite bind_pair. exact (IH x).
Qed.

(** X15.  When resolution arrives at a node without children
    ([children] absent or [null]) whose action returns [null] or
    [undefined] itself, whether or not it called [next()] before,
    [resolve] answers [undefined] and nothing is evaluated after the
    action call: a [null] returned synchronously is never the result. *)
Theorem nullish_action_on_leaf_is_undefined router p ctx r parent' result scan act v t :
  arrives (patterns router) p ctx (routes router) None r parent' result scan ->
  action r = Some act ->
  run_script (next_of (patterns router) p ctx r)
             (act (context_for p ctx r parent' result)) = (Returns v, t) ->
  nullish v = true ->
  children r = Absent \/ children r = Null ->
  resolve router p ctx
    = (Fulfilled Undefined, scan ++ [EvAction (context_for p ctx r parent' result)]).
Proof.
  intros Harr Hact Hrun Hnull Hch. apply resolve_passes; [|discriminate].
  assert (next_of (patterns router) p ctx r = ret (Fulfilled Undefined)) as Hnext
    by (unfold next_of; destruct Hch as [-> | ->]; reflexivity).
  assert (t = []) as ->.
  { pose proof (run_script_silent (Fulfilled Undefined)
                  (act (context_for p ctx r parent' result))) as Hs.
    rewrite <- Hnext, Hrun in Hs. exact Hs. }
  rewrite (resolve_within_arrives _ _ _ _ _ _ _ _ _ Harr).
  rewrite (on_match_completes _ _ _ _ _ _ _ _ _ Hact Hrun), Hnull, Hnext.
  reflexivity.
Qed.

End FurtherResolverFacts.

(** ** The further properties on the example routers *)

Module FurtherInstances.

Import Examples FurtherExamples.

Local Ltac compute_eq := vm_compute; reflexivity.

Local Ltac by_matching := eexists; split; compute_eq.

(** ["//foo/"] is stripped like ["foo"]. *)
Lemma stripJoiners_ignores_outer_slashes_witness :
  stripJoiners ("//" +:+ "foo" +:+ "/") = stripJoiners "foo".
Proof.
  apply (stripJoiners_ignores_outer_slashes "//" "foo" "/"); reflexivity.
Defined.

(** ["foo"], the stripped ["/foo/"], is stripped to itself. *)
Lemma stripJoiners_idempotent_witness : stripJoiners "foo" = Some "foo".
Proof.
  apply (stripJoiners_idempotent "/foo/" "foo"). reflexivity.
Defined.

(** The children of ["/base"] are compiled against a base without
    trailing separator. *)
Lemma child_base_ends_with_slash_iff_witness :
  ends_with_slash (join "/" ([Some origin] ++ [stripJoiners "/base"])) = true
  <-> "base" = EmptyString.
Proof.
  apply (child_base_ends_with_slash_iff [Some origin] "/base" "base").
  - discriminate.
  - reflexivity.
Defined.

(** The entry under the identity of [sub_route] was compiled for a node
    of the tree of [base_route]. *)
Lemma table_entries_are_compiled_nodes_witness :
  exists (r : route) ps,
    occurs (routes (the_router (Single base_route) no_handler))
           (root_parents origin no_handler) r ps /\
    ident r = 2%positive /\
    WHATWG.construct (stripJoiners (path r)) (join "/" ps)
      = Some (WHATWG.mkPattern origin (WHATWG.literal "/sub")
                [WHATWG.FullWildcard "0"] [WHATWG.FullWildcard "0"]).
Proof.
  apply (table_entries_are_compiled_nodes origin (Single base_route) no_handler
           (the_router (Single base_route) no_handler)); compute_eq.
Defined.

Lemma sub_route_occurs :
  occurs (routes (the_router (Single base_route) no_handler))
         (root_parents origin no_handler) sub_route [Some origin; Some "base"].
Proof.
  apply (occurs_below [base_route] [Some origin] base_route [sub_route]).
  - apply list_elem_of_singleton. reflexivity.
  - reflexivity.
  - apply (occurs_here [sub_route] [Some origin; Some "base"]).
    apply list_elem_of_singleton. reflexivity.
Qed.

Lemma base_route_occurrences (r : route) ps :
  occurs [base_route] [Some origin] r ps ->
  (r = base_route /\ ps = [Some origin]) \/
  (r = sub_route /\ ps = [Some origin; Some "base"]).
Proof.
  intros H. inversion H as [? ? ? Hin|? ? via cs ? ? Hin Hcs Hocc]; subst.
  - apply list_elem_of_singleton in Hin. auto.
  - apply list_elem_of_singleton in Hin. subst via. injection Hcs as <-.
    inversion Hocc as [? ? ? Hin'|? ? via' cs' ? ? Hin' Hcs' _]; subst.
    + apply list_elem_of_singleton in Hin'. auto.
    + apply list_elem_of_singleton in Hin'. subst via'. discriminate.
Qed.

(** [sub_route] is stored with the pattern compiled from ["sub"] and the
    base joined from the origin and ["base"]. *)
Lemma unshared_node_has_its_pattern_witness :
  patterns (the_router (Single base_route) no_handler) !! ident sub_route =
    WHATWG.construct (stripJoiners (path sub_route)) (join "/" [Some origin; Some "base"])
  /\ is_Some (patterns (the_router (Single base_route) no_handler) !! ident sub_route).
Proof.
  apply (unshared_node_has_its_pattern origin (Single base_route) no_handler
           (the_router (Single base_route) no_handler) sub_route
           [Some origin; Some "base"]).
  - compute_eq.
  - exact sub_route_occurs.
  - intros r' ps' Hocc Hid.
    apply base_route_occurrences in Hocc as [[-> ->]|[-> ->]].
    + discriminate.
    + split; reflexivity.
Defined.

(** [section_route] matches [foo_url] first and its only child does not:
    the resolution fails although [page_route], declared after it,
    matches. *)
Lemma nested_not_found_is_final_witness :
  let router := the_router (Many [section_route; page_route]) no_handler in
  matched (patterns router) foo_url page_route page_result
  /\ resolve router foo_url Absent =
       (Rejected (not_found foo_url),
        (scanned foo_url (@nil route) ++ [EvExec 1 foo_url]) ++
        scanned foo_url [inner_route]).
Proof.
  cbv zeta. split; [by_matching|].
  apply (nested_not_found_is_final
           (the_router (Many [section_route; page_route]) no_handler) foo_url Absent
           section_route None section_result
           (scanned foo_url (@nil route) ++ [EvExec 1 foo_url]) [inner_route]).
  - apply (reaches_here _ foo_url [] section_route [page_route] None section_result).
    split; [constructor | by_matching].
  - reflexivity.
  - reflexivity.
  - constructor; [by_matching | constructor].
  - reflexivity.
Defined.

(** [page_route] was pushed after construction: resolving a path that
    [foo_route] rejects fails with a [TypeError], handler or not. *)
Lemma missing_pattern_is_type_error_witness :
  resolve stale_router bar_url Absent =
    (Rejected TypeError, scanned bar_url [foo_route]).
Proof.
  apply (missing_pattern_is_type_error stale_router bar_url Absent
           [foo_route] page_route []).
  - reflexivity.
  - constructor; [by_matching | constructor].
  - compute_eq.
Defined.

(** A handler that throws the error again: [resolve] fails with it after
    one handler call. *)
Lemma handler_failure_surfaces_witness :
  resolve (the_router (Many [foo_route]) with_rethrow) bar_url Absent =
    (Rejected (RouterError 404 "Page https://example.com/bar is not found"),
     [EvExec 1 bar_url] ++
     [EvHandler bar_url 404 "Page https://example.com/bar is not found" Absent])
  /\ quiet [EvExec (C:=Ctx) 1 bar_url].
Proof.
  apply (handler_failure_surfaces
           (the_router (Many [foo_route]) with_rethrow) bar_url Absent rethrowing
           404 "Page https://example.com/bar is not found" [EvExec 1 bar_url]).
  - reflexivity.
  - compute_eq.
  - left. reflexivity.
Defined.

(** The action of [calling_null_route] calls [next()] and returns
    [null]; [resolve] answers [undefined]. *)
Lemma nullish_action_on_leaf_is_undefined_witness :
  resolve (the_router (Single calling_null_route) no_handler) home Absent =
    (Fulfilled Undefined,
     (scanned home (@nil route) ++ [EvExec 1 home]) ++
     [EvAction (context_for (R:=Res) (E:=Exn) home Absent calling_null_route None
                            home_result)]).
Proof.
  apply (nullish_action_on_leaf_is_undefined
           (the_router (Single calling_null_route) no_handler) home Absent
           calling_null_route None home_result
           (scanned home (@nil route) ++ [EvExec 1 home])
           (fun _ => CallNext (fun _ => Finish (Returns NullValue))) NullValue []).
  - apply (arrives_here _ home Absent [] calling_null_route [] None home_result).
    split; [constructor | by_matching].
  - reflexivity.
  - reflexivity.
  - reflexivity.
  - left. reflexivity.
Defined.

End FurtherInstances.
